(** * jx: the helm CLI wrapper and its command runner

    A shallow embedding of [pkg/util/commands.go] and [pkg/helm/helm_cli.go].

    - Go strings are byte strings: Rocq's [string].
    - Go's [int] and [time.Duration] are 64-bit: [Z] with the wrap-around
      written out where the code does arithmetic.
    - A Go [map[string]string] is a [gmap string string]; the order in which
      [range] visits it is not fixed by the language, so loops over a map
      take the visiting order as an argument.
    - [(value, error)] results are pairs with an [option error]; a run-time
      panic is a separate outcome.
    - The operating system (process launch, clock, file system) is not part
      of the program: it enters as an argument of the operations. *)

From Stdlib Require Import ZArith String Ascii List DecimalString Lia.
From stdpp Require Import gmap strings list fin_maps.

Local Open Scope string_scope.
Local Open Scope list_scope.

(** ** The Go library functions the two files call *)

Module strings.

Definition tab : ascii := "009"%char.
Definition nl : ascii := "010"%char.

Definition byte_in (c : ascii) (lo hi : N) : bool :=
  ((lo <=? N_of_ascii c) && (N_of_ascii c <=? hi))%N.

Definition byte_is (c : ascii) (n : N) : bool := (N_of_ascii c =? n)%N.

(** The table [asciiSpace]: tab, line feed, vertical tab, form feed,
    carriage return and space. *)
Definition asciiSpace (c : ascii) : bool := byte_in c 9 13 || byte_is c 32.

(** [unicode.IsSpace] on the rune that starts [s], as the number of bytes
    that rune takes (0 when [s] does not start with white space).  Beyond
    ASCII the white-space runes are U+0085 and U+00A0 (two bytes, lead
    byte C2), U+1680 (E1 9A 80), U+2000..U+200A, U+2028, U+2029, U+202F
    (E2 80 xx), U+205F (E2 81 9F) and U+3000 (E3 80 80).  A lead byte is
    never the continuation of another rune, so these byte patterns are
    white space wherever they occur. *)
Definition spaceWidth (s : string) : nat :=
  match s with
  | EmptyString => 0
  | String c s1 =>
      if asciiSpace c then 1
      else match s1 with
           | EmptyString => 0
           | String d s2 =>
               if byte_is c 194 then
                 if byte_is d 133 || byte_is d 160 then 2 else 0
               else match s2 with
                    | EmptyString => 0
                    | String e _ =>
                        if byte_is c 225 then
                          if byte_is d 154 && byte_is e 128 then 3 else 0
                        else if byte_is c 226 then
                          if byte_is d 128
                             && (byte_in e 128 138 || byte_in e 168 169
                                 || byte_is e 175)
                          then 3
                          else if byte_is d 129 && byte_is e 159 then 3
                          else 0
                        else if byte_is c 227 then
                          if byte_is d 128 && byte_is e 128 then 3 else 0
                        else 0
                    end
           end
  end.

Definition emit (cur : string) : list string :=
  if String.eqb cur "" then [] else [cur].

(** [strings.Fields]: the maximal runs of bytes between white-space runes.
    [skip] counts the bytes still to pass of the white-space rune being
    read, [cur] is the field read so far. *)
Fixpoint fieldsFrom (s : string) (skip : nat) (cur : string) : list string :=
  match s with
  | EmptyString => emit cur
  | String c s' =>
      match skip with
      | S k => fieldsFrom s' k cur
      | O =>
          match spaceWidth s with
          | O => fieldsFrom s' 0 (cur +:+ String c "")
          | S w => emit cur ++ fieldsFrom s' w ""
          end
      end
  end.

Definition Fields (s : string) : list string := fieldsFrom s 0 "".

(** Leading white space removed. *)
Fixpoint trimLeft (s : string) (skip : nat) : string :=
  match s with
  | EmptyString => ""
  | String c s' =>
      match skip with
      | S k => trimLeft s' k
      | O =>
          match spaceWidth s with
          | O => s
          | S w => trimLeft s' w
          end
      end
  end.

(** The number of leading bytes of [s] that remain when the trailing white
    space is removed. *)
Fixpoint keepLen (s : string) (skip : nat) : nat :=
  match s with
  | EmptyString => 0
  | String c s' =>
      match skip with
      | S k => match keepLen s' k with O => 0 | S r => S (S r) end
      | O =>
          match spaceWidth s with
          | O => S (keepLen s' 0)
          | S w => match keepLen s' w with O => 0 | S r => S (S r) end
          end
      end
  end.

(** [strings.TrimSpace] *)
Definition TrimSpace (s : string) : string :=
  let t := trimLeft s 0 in substring 0 (keepLen t 0) t.

(** [strings.Split(s, sep)] for a one-byte separator, which is what both
    files pass (a line feed or a tab).  The result is never empty. *)
Fixpoint Split (s : string) (sep : ascii) : list string :=
  match s with
  | EmptyString => [""]
  | String c s' =>
      if Ascii.eqb c sep then "" :: Split s' sep
      else match Split s' sep with
           | f :: fs => String c f :: fs
           | [] => [String c ""]
           end
  end.

(** [strings.HasSuffix] *)
Definition HasSuffix (s suffix : string) : bool :=
  (String.length suffix <=? String.length s)%nat
  && String.eqb
       (substring (String.length s - String.length suffix)
                  (String.length suffix) s)
       suffix.

(** [strings.Join] *)
Definition Join (elems : list string) (sep : string) : string :=
  String.concat sep elems.

End strings.

Module strconv.
(** [strconv.Itoa] *)
Definition Itoa (n : Z) : string := NilZero.string_of_int (Z.to_int n).
End strconv.

Module errors.

(** Go's [error] values as this code builds them: a message, or a cause
    wrapped with a message ([errors.Wrap], [errors.Wrapf]). *)
Inductive error : Type :=
| New (msg : string)
| Wrap (cause : error) (msg : string).

Fixpoint Error (e : error) : string :=
  match e with
  | New msg => msg
  | Wrap cause msg => msg +:+ ": " +:+ Error cause
  end.

#[export] Instance error_eq_dec : EqDecision error.
Proof. solve_decision. Defined.

End errors.
Export errors(error).

(** A Go call either returns or panics. *)
Inductive outcome (A : Type) : Type :=
| Returns (a : A)
| Panics.
Arguments Returns {A} a.
Arguments Panics {A}.

(** Go's [int]: 64 bits, two's complement. *)
Definition int_wrap (z : Z) : Z := ((z + 2 ^ 63) mod 2 ^ 64 - 2 ^ 63)%Z.

(** [s[n:]] on a slice: panics unless [n <= len(s)]. *)
Definition slice_from {A} (n : nat) (s : list A) : outcome (list A) :=
  if (n <=? length s)%nat then Returns (drop n s) else Panics.

(** [os/exec].  What a launched process does is the operating system's
    business: [Process] gives, for a program, its arguments and a working
    directory, the bytes the process writes to its standard output and
    standard error together, and the error of the launch or of a non-zero
    exit. *)
Module exec.

Inductive Writer : Type := Discard | Buffer.

Record Cmd : Type := mkCmd {
  Path : string;
  Args : list string;
  Dir : string;
  Stdout : option Writer;
  Stderr : option Writer
}.

Definition Process : Type :=
  string -> list string -> string -> string * option error.

(** [exec.Command(name, arg...)] *)
Definition Command (name : string) (arg : list string) : Cmd :=
  mkCmd name arg "" None None.

Definition setDir (dir : string) (c : Cmd) : Cmd :=
  mkCmd (Path c) (Args c) dir (Stdout c) (Stderr c).

Definition setStdout (w : Writer) (c : Cmd) : Cmd :=
  mkCmd (Path c) (Args c) (Dir c) (Some w) (Stderr c).

Definition setStderr (w : Writer) (c : Cmd) : Cmd :=
  mkCmd (Path c) (Args c) (Dir c) (Stdout c) (Some w).

(** [Cmd.CombinedOutput]: it installs one buffer as both streams and
    runs the command; when a stream has been set already it refuses,
    with [exec: Stdout already set] or [exec: Stderr already set], and
    launches nothing. *)
Definition CombinedOutput (os : Process) (c : Cmd) : string * option error :=
  match Stdout c with
  | Some _ => ("", Some (errors.New "exec: Stdout already set"))
  | None =>
      match Stderr c with
      | Some _ => ("", Some (errors.New "exec: Stderr already set"))
      | None => os (Path c) (Args c) (Dir c)
      end
  end.

End exec.

(** [github.com/cenkalti/backoff].  Durations are in nanoseconds. *)
Module backoff.

Definition Millisecond : Z := 1000000.
Definition Second : Z := 1000 * Millisecond.
Definition Minute : Z := 60 * Second.

(** The policy's duration fields (the two factors, floating-point numbers
    that only shape the delays, are left out). *)
Record ExponentialBackOff : Type := mkExponentialBackOff {
  InitialInterval : Z;
  MaxInterval : Z;
  MaxElapsedTime : Z
}.

Definition NewExponentialBackOff : ExponentialBackOff :=
  mkExponentialBackOff (500 * Millisecond) (60 * Second) (15 * Minute).

Definition setMaxElapsedTime (d : Z) (b : ExponentialBackOff)
  : ExponentialBackOff :=
  mkExponentialBackOff (InitialInterval b) (MaxInterval b) d.

(** The clock: [clock b n] says whether [NextBackOff], asked after the
    failed attempt number [n] (from 0), answers [Stop], that is, whether
    the time elapsed since [Reset] has then passed what [b] allows. *)
Definition Clock : Type := ExponentialBackOff -> nat -> bool.

(** [backoff.Retry(operation, b)]: call the operation; return [nil] when
    it succeeds; otherwise ask the policy, return the operation's error
    when it says [Stop], else sleep and go round again.  The operation
    works on a state [S] (the variables its closure captures).  The loop
    is unbounded in Go; here it runs at most [fuel] rounds and [None]
    says the fuel ran out. *)
Fixpoint Retry {S : Type} (fuel : nat) (clock : Clock)
    (operation : nat -> S -> option error * S)
    (b : ExponentialBackOff) (n : nat) (s : S)
  : option (option error * S) :=
  match fuel with
  | O => None
  | Datatypes.S fuel' =>
      match operation n s with
      | (None, s') => Some (None, s')
      | (Some err, s') =>
          if clock b n then Some (Some err, s')
          else Retry fuel' clock operation b (Datatypes.S n) s'
      end
  end.

End backoff.

(** ** [pkg/util/commands.go] *)

Module util.

(** Command is a struct containing the details of an external command to
    be executed. *)
Record Command : Type := mkCommand {
  attempts : Z;
  Errors : list error;
  Dir : string;
  Name : string;
  Args : list string;
  ExponentialBackOff : option backoff.ExponentialBackOff;
  Timeout : Z;
  Verbose : bool;
  Quiet : bool
}.

Definition set_attempts (n : Z) (c : Command) : Command :=
  mkCommand n (Errors c) (Dir c) (Name c) (Args c) (ExponentialBackOff c)
            (Timeout c) (Verbose c) (Quiet c).
Definition set_Errors (es : list error) (c : Command) : Command :=
  mkCommand (attempts c) es (Dir c) (Name c) (Args c) (ExponentialBackOff c)
            (Timeout c) (Verbose c) (Quiet c).
Definition set_Dir (d : string) (c : Command) : Command :=
  mkCommand (attempts c) (Errors c) d (Name c) (Args c)
            (ExponentialBackOff c) (Timeout c) (Verbose c) (Quiet c).
Definition set_Name (n : string) (c : Command) : Command :=
  mkCommand (attempts c) (Errors c) (Dir c) n (Args c)
            (ExponentialBackOff c) (Timeout c) (Verbose c) (Quiet c).
Definition set_Args (a : list string) (c : Command) : Command :=
  mkCommand (attempts c) (Errors c) (Dir c) (Name c) a
            (ExponentialBackOff c) (Timeout c) (Verbose c) (Quiet c).
Definition set_ExponentialBackOff (b : option backoff.ExponentialBackOff)
    (c : Command) : Command :=
  mkCommand (attempts c) (Errors c) (Dir c) (Name c) (Args c) b
            (Timeout c) (Verbose c) (Quiet c).
Definition set_Timeout (t : Z) (c : Command) : Command :=
  mkCommand (attempts c) (Errors c) (Dir c) (Name c) (Args c)
            (ExponentialBackOff c) t (Verbose c) (Quiet c).

(** A Command as a composite literal builds it: the fields not named are
    zero. *)
Definition new (name : string) (args : list string) (dir : string)
  : Command :=
  mkCommand 0 [] dir name args None 0 false false.

(** Attempts The number of times the command has been executed *)
Definition Attempts (c : Command) : Z := attempts c.

Definition len {A} (l : list A) : Z := Z.of_nat (length l).

(** DidError returns a boolean if any error occurred in any execution of
    the command *)
Definition DidError (c : Command) : bool :=
  if (len (Errors c) >? 0)%Z then true else false.

(** DidFail returns a boolean if the command could not complete (errored
    on every attempt) *)
Definition DidFail (c : Command) : bool :=
  if (len (Errors c) =? attempts c)%Z then true else false.

(** Error returns the last error *)
Definition Error (c : Command) : option error :=
  if (len (Errors c) >? 0)%Z then last (Errors c) else None.

Definition IsVerbose (c : Command) : bool := Verbose c.

Definition IsQuiet (c : Command) : bool :=
  if IsVerbose c then false
  else if Quiet c then true
  else false.

(** The message [run] wraps a failure with. *)
Definition failed_to_run (c : Command) (text : string) : string :=
  "failed to run '" +:+ Name c +:+ " " +:+ strings.Join (Args c) " "
  +:+ "' command in directory '" +:+ Dir c +:+ "', output: '" +:+ text +:+ "'".

(** [run]: one execution.  (With [Verbose] set a successful run also
    writes the raw output to the log, which the model does not keep.) *)
Definition run (os : exec.Process) (c : Command) : string * option error :=
  let e := exec.Command (Name c) (Args c) in
  let e := if String.eqb (Dir c) "" then e else exec.setDir (Dir c) e in
  let e := if IsQuiet c
           then exec.setStderr exec.Discard (exec.setStdout exec.Discard e)
           else e in
  let '(data, err) := exec.CombinedOutput os e in
  let output := data in
  let text := strings.TrimSpace output in
  match err with
  | Some err => (text, Some (errors.Wrap err (failed_to_run c text)))
  | None => (text, None)
  end.

(** What both [Run]'s closure and [RunWithoutRetry] do after [run]:
    [c.attempts++], and the error, if any, appended to [c.Errors]. *)
Definition record (e : option error) (c : Command) : Command :=
  let c := set_attempts (int_wrap (attempts c + 1)) c in
  match e with
  | Some e => set_Errors (Errors c ++ [e]) c
  | None => c
  end.

(** RunWithoutRetry Execute the command without retrying on failure and
    block waiting for return values.  (Both entry points first overwrite
    the process's PATH, which nothing here reads back.) *)
Definition RunWithoutRetry (os : exec.Process) (c : Command)
  : (string * option error) * Command :=
  let '(r, e) := run os c in
  let c := record e c in
  ((r, e), c).

Definition three_minutes : Z := 3 * backoff.Minute.

(** The variables [Run]'s closure [f] works on: [r], [e] and the
    Command. *)
Definition f (oss : nat -> exec.Process) (n : nat)
    (s : string * option error * Command)
  : option error * (string * option error * Command) :=
  let '(_, _, c) := s in
  let '(r, e) := run (oss n) c in
  let c := record e c in
  (e, (r, e, c)).

(** Run Execute the command and block waiting for return values.  The
    attempt number [n] meets the process behaviour [oss n]. *)
Definition Run (fuel : nat) (clock : backoff.Clock)
    (oss : nat -> exec.Process) (c : Command)
  : option ((string * option error) * Command) :=
  let c := set_ExponentialBackOff (Some backoff.NewExponentialBackOff) c in
  let c := if (Timeout c =? 0)%Z then set_Timeout three_minutes c else c in
  let b := backoff.setMaxElapsedTime (Timeout c) backoff.NewExponentialBackOff in
  let c := set_ExponentialBackOff (Some b) c in
  match backoff.Retry fuel clock (f oss) b 0 ("", None, c) with
  | None => None
  | Some (Some err, (_, _, c)) => Some (("", Some err), c)
  | Some (None, (r, _, c)) => Some ((r, None), c)
  end.

(** PathWithBinary Sets the $PATH variable. Accepts an optional slice of
    strings containing paths to add to $PATH.  [path] is what
    [os.Getenv] gives for PATH; [binDir] and [mvnBinDir] are what
    [BinaryLocation] and [MavenBinaryLocation], which live elsewhere in the
    package, answer (their errors are dropped); the separator is the
    operating system's. *)
Definition PathWithBinary (PathListSeparator : ascii)
    (path binDir mvnBinDir : string) (paths : list string) : string :=
  let sep := String PathListSeparator "" in
  let answer := path +:+ sep +:+ binDir in
  let answer := if negb (String.eqb mvnBinDir "")
                then answer +:+ sep +:+ mvnBinDir
                else answer in
  fold_left (fun answer p => answer +:+ sep +:+ p) paths answer.

End util.

(** [net/url]: of a parsed URL this code reads the host only.  [url.Parse]
    itself is Go's; the operations take it as an argument. *)
Module url.

Record URL : Type := mkURL {
  Scheme : string;
  Host : string;
  Path : string
}.

Definition Parser : Type := string -> URL + error.

End url.

(** ** [pkg/helm/helm_cli.go] *)

Module helm.

(** Declared elsewhere in the package; nothing here reads it. *)
Definition Version : Type := Z.

(** HelmCLI implements common helm actions based on helm CLI *)
Record HelmCLI : Type := mkHelmCLI {
  Binary : string;
  BinVersion : Version;
  CWD : string;
  Runner : util.Command
}.

Definition set_Runner (r : util.Command) (h : HelmCLI) : HelmCLI :=
  mkHelmCLI (Binary h) (BinVersion h) (CWD h) r.

(** NewHelmCLI creates a new HelmCLI instance configured to used the
    provided helm CLI in the given current working directory *)
Definition NewHelmCLI (binary : string) (version : Version) (cwd : string)
    (args : list string) : HelmCLI :=
  let a := fold_left
             (fun a x => fold_left (fun a z => a ++ [z])
                                   (strings.Split x " "%char) a)
             args [] in
  mkHelmCLI binary version cwd (util.new binary a cwd).

Definition runHelm (os : exec.Process) (args : list string) (h : HelmCLI)
  : option error * HelmCLI :=
  let r := util.set_Name (Binary h) (Runner h) in
  let r := util.set_Dir (CWD h) r in
  let r := util.set_Args args r in
  let '((_, err), r) := util.RunWithoutRetry os r in
  (err, set_Runner r h).

Definition runHelmWithOutput (os : exec.Process) (args : list string)
    (h : HelmCLI) : (string * option error) * HelmCLI :=
  let r := util.set_Dir (CWD h) (Runner h) in
  let r := util.set_Name (Binary h) r in
  let r := util.set_Args args r in
  let '(res, r) := util.RunWithoutRetry os r in
  (res, set_Runner r h).

(** The body of the loop of [ListRepos]. *)
Definition ListRepos_line (repos : gmap string string) (line : string)
  : gmap string string :=
  let line := strings.TrimSpace line in
  let fields := strings.Fields line in
  match fields with
  | f0 :: f1 :: _ => <[f0 := f1]> repos
  | f0 :: [] => <[f0 := ""]> repos
  | [] => repos
  end.

(** ListRepos list the installed helm repos together with their URL.
    (The [nil] map returned with an error is the empty map here.) *)
Definition ListRepos (os : exec.Process) (h : HelmCLI)
  : outcome (gmap string string * option error) * HelmCLI :=
  let '((output, err), h) := runHelmWithOutput os ["repo"; "list"] h in
  match err with
  | Some err =>
      (Returns (∅, Some (errors.Wrap err "failed to list repositories")), h)
  | None =>
      let repos : gmap string string := ∅ in
      let lines := strings.Split output strings.nl in
      match slice_from 2 lines with
      | Panics => (Panics, h)
      | Returns rest =>
          (Returns (fold_left ListRepos_line rest repos, None), h)
      end
  end.

Section IsRepoMissing.

Variable Parse : url.Parser.

(** The order in which [range] visits the entries of a map. *)
Variable range : gmap string string -> list (string * string).

(** The loop of [IsRepoMissing] over the entries still to visit. *)
Fixpoint IsRepoMissing_loop (searchedURL : url.URL)
    (repos : list (string * string)) : bool * option error :=
  match repos with
  | [] => (true, None)
  | (_, repoURL) :: repos =>
      if (0 <? String.length repoURL)%nat then
        match Parse repoURL with
        | inr err =>
            (true, Some (errors.Wrap err "failed to parse the repo URL"))
        | inl u =>
            if String.eqb (url.Host u) (url.Host searchedURL)
            then (false, None)
            else IsRepoMissing_loop searchedURL repos
        end
      else IsRepoMissing_loop searchedURL repos
  end.

(** IsRepoMissing checks if the repository with the given URL is missing
    from helm *)
Definition IsRepoMissing (os : exec.Process) (URL : string) (h : HelmCLI)
  : outcome (bool * option error) * HelmCLI :=
  match ListRepos os h with
  | (Panics, h) => (Panics, h)
  | (Returns (_, Some err), h) =>
      (Returns (true,
                Some (errors.Wrap err "failed to list the repositories")),
       h)
  | (Returns (repos, None), h) =>
      match Parse URL with
      | inr err =>
          (Returns (true,
                    Some (errors.Wrap err "provided repo URL is invalid")),
           h)
      | inl searchedURL =>
          (Returns (IsRepoMissing_loop searchedURL (range repos)), h)
      end
  end.

End IsRepoMissing.

(** The argument vector [UpgradeChart] builds, append by append.
    [version] and [timeout] are pointers in Go: [None] is [nil]. *)
Definition UpgradeChart_args (chart releaseName ns : string)
    (version : option string) (install : bool) (timeout : option Z)
    (force wait : bool) (values valueFiles : list string) : list string :=
  let args : list string := [] in
  let args := args ++ ["upgrade"] in
  let args := args ++ ["--namespace"; ns] in
  let args := if install then args ++ ["--install"] else args in
  let args := if wait then args ++ ["--wait"] else args in
  let args := if force then args ++ ["--force"] else args in
  let args := match timeout with
              | Some t => args ++ ["--timeout"; strconv.Itoa t]
              | None => args
              end in
  let args := match version with
              | Some v => args ++ ["--version"; v]
              | None => args
              end in
  let args := fold_left (fun args value => args ++ ["--set"; value])
                        values args in
  let args := fold_left (fun args valueFile => args ++ ["--values"; valueFile])
                        valueFiles args in
  let args := args ++ [releaseName; chart] in
  args.

(** UpgradeChart upgrades a helm chart according with given helm flags *)
Definition UpgradeChart (os : exec.Process) (chart releaseName ns : string)
    (version : option string) (install : bool) (timeout : option Z)
    (force wait : bool) (values valueFiles : list string) (h : HelmCLI)
  : option error * HelmCLI :=
  runHelm os
    (UpgradeChart_args chart releaseName ns version install timeout force
                       wait values valueFiles)
    h.

(** ListCharts execute the helm list command and returns its output *)
Definition ListCharts (os : exec.Process) (h : HelmCLI)
  : (string * option error) * HelmCLI :=
  runHelmWithOutput os ["list"] h.

(** The body of the loop of [SearchChartVersions]. *)
Definition SearchChartVersions_line (versions : list string) (line : string)
  : list string :=
  let fields := strings.Fields line in
  match fields with
  | _ :: v :: _ =>
      if negb (String.eqb v "") then versions ++ [v] else versions
  | _ => versions
  end.

(** SearchChartVersions search all version of the given chart *)
Definition SearchChartVersions (os : exec.Process) (chart : string)
    (h : HelmCLI) : outcome (list string * option error) * HelmCLI :=
  let '((output, err), h) :=
    runHelmWithOutput os ["search"; chart; "--versions"] h in
  match err with
  | Some err =>
      (Returns ([], Some (errors.Wrap err
                            ("failed to search chart '" +:+ chart +:+ "'"))),
       h)
  | None =>
      let versions : list string := [] in
      let lines := strings.Split output strings.nl in
      match slice_from 2 lines with
      | Panics => (Panics, h)
      | Returns rest =>
          (Returns (fold_left SearchChartVersions_line rest versions, None),
           h)
      end
  end.

(** The body of the loop of [StatusReleases]. *)
Definition StatusReleases_line (statusMap : gmap string string)
    (line : string) : gmap string string :=
  let fields := strings.Split line strings.tab in
  match fields with
  | f0 :: _ :: _ :: f3 :: _ =>
      let release := strings.TrimSpace f0 in
      let status := strings.TrimSpace f3 in
      <[release := status]> statusMap
  | _ => statusMap
  end.

(** StatusReleases returns the status of all installed releases *)
Definition StatusReleases (os : exec.Process) (h : HelmCLI)
  : outcome (gmap string string * option error) * HelmCLI :=
  let '((output, err), h) := ListCharts os h in
  match err with
  | Some err =>
      (Returns (∅, Some (errors.Wrap err
                           "failed to list the installed chart releases")),
       h)
  | None =>
      let lines := strings.Split output strings.nl in
      let statusMap : gmap string string := ∅ in
      match slice_from 2 lines with
      | Panics => (Panics, h)
      | Returns rest =>
          (Returns (fold_left StatusReleases_line rest statusMap, None), h)
      end
  end.

(** The file system, as [util.FileExists] and [filepath.Glob] report it,
    and [filepath.Join] on two elements. *)
Record FileSystem : Type := mkFileSystem {
  FileExists : string -> bool * option error;
  Glob : string -> list string * option error;
  Join : string -> string -> string
}.

(** The loop of [FindChart] over the matches of the two-level pattern:
    the first one that does not end in [/preview/Chart.yaml]. *)
Fixpoint FindChart_loop (files : list string) : option string :=
  match files with
  | [] => None
  | file :: files =>
      if negb (strings.HasSuffix file "/preview/Chart.yaml")
      then Some file
      else FindChart_loop files
  end.

(** FindChart find a chart in the current working directory, if no chart
    file is found an error is returned *)
Definition FindChart (fs : FileSystem) (h : HelmCLI)
  : string * option error :=
  let dir := CWD h in
  let chartFile := Join fs dir "Chart.yaml" in
  let '(exists_, err) := FileExists fs chartFile in
  match err with
  | Some err =>
      ("", Some (errors.Wrap err
                   ("no Chart.yaml file found in directory '" +:+ dir +:+ "'")))
  | None =>
      if negb exists_ then
        let '(files, err) := Glob fs "*/Chart.yaml" in
        match err with
        | Some err => ("", Some (errors.Wrap err "no Chart.yaml file found"))
        | None =>
            match files with
            | file0 :: _ => (file0, None)
            | [] =>
                let '(files, err) := Glob fs "*/*/Chart.yaml" in
                match err with
                | Some err =>
                    ("", Some (errors.Wrap err "no Chart.yaml file found"))
                | None =>
                    match FindChart_loop files with
                    | Some file => (file, None)
                    | None => (chartFile, None)
                    end
                end
            end
        end
      else (chartFile, None)
  end.

(** SetCWD configures the common working directory of helm CLI *)
Definition SetCWD (dir : string) (h : HelmCLI) : HelmCLI :=
  mkHelmCLI (Binary h) (BinVersion h) dir (Runner h).

(** HelmBinary return the configured helm CLI *)
Definition HelmBinary (h : HelmCLI) : string := Binary h.

(** SetHelmBinary configure a new helm CLI *)
Definition SetHelmBinary (binary : string) (h : HelmCLI) : HelmCLI :=
  mkHelmCLI binary (BinVersion h) (CWD h) (Runner h).

(** The argument vector [Init] builds. *)
Definition Init_args (clientOnly : bool) (serviceAccount : string)
    (tillerNamespace : string) (upgrade : bool) : list string :=
  let args : list string := [] in
  let args := args ++ ["init"] in
  let args := if clientOnly then args ++ ["--client-only"] else args in
  let args := if negb (String.eqb serviceAccount "")
              then args ++ ["--service-account"; serviceAccount]
              else args in
  let args := if negb (String.eqb tillerNamespace "")
              then args ++ ["--tiller-namespace"; tillerNamespace]
              else args in
  let args := if upgrade then args ++ ["--upgrade"] else args in
  args.

(** Init executes the helm init command according with the given flags *)
Definition Init (os : exec.Process) (clientOnly : bool)
    (serviceAccount : string) (tillerNamespace : string) (upgrade : bool)
    (h : HelmCLI) : option error * HelmCLI :=
  runHelm os (Init_args clientOnly serviceAccount tillerNamespace upgrade) h.

(** AddRepo adds a new helm repo with the given name and URL *)
Definition AddRepo (os : exec.Process) (repo URL : string) (h : HelmCLI)
  : option error * HelmCLI :=
  runHelm os ["repo"; "add"; repo; URL] h.

(** RemoveRepo removes the given repo from helm *)
Definition RemoveRepo (os : exec.Process) (repo : string) (h : HelmCLI)
  : option error * HelmCLI :=
  runHelm os ["repo"; "remove"; repo] h.

(** UpdateRepo updates the helm repositories *)
Definition UpdateRepo (os : exec.Process) (h : HelmCLI)
  : option error * HelmCLI :=
  runHelm os ["repo"; "update"] h.

(** BuildDependency builds the helm dependencies of the helm chart from the
    current working directory *)
Definition BuildDependency (os : exec.Process) (h : HelmCLI)
  : option error * HelmCLI :=
  runHelm os ["dependency"; "build"] h.

(** The argument vector [InstallChart] builds. *)
Definition InstallChart_args (chart releaseName ns : string)
    (version : option string) (timeout : option Z)
    (values valueFiles : list string) : list string :=
  let args : list string := [] in
  let args := args ++ ["install"; "--name"; releaseName; "--namespace"; ns;
                       chart] in
  let args := match timeout with
              | Some t => args ++ ["--timeout"; strconv.Itoa t]
              | None => args
              end in
  let args := match version with
              | Some v => args ++ ["--version"; v]
              | None => args
              end in
  let args := fold_left (fun args value => args ++ ["--set"; value])
                        values args in
  let args := fold_left (fun args valueFile => args ++ ["--values"; valueFile])
                        valueFiles args in
  args.

(** InstallChart installs a helm chart according with the given flags *)
Definition InstallChart (os : exec.Process) (chart releaseName ns : string)
    (version : option string) (timeout : option Z)
    (values valueFiles : list string) (h : HelmCLI)
  : option error * HelmCLI :=
  runHelm os
    (InstallChart_args chart releaseName ns version timeout values valueFiles)
    h.

(** The argument vector [DeleteRelease] builds. *)
Definition DeleteRelease_args (releaseName : string) (purge : bool)
  : list string :=
  let args : list string := [] in
  let args := args ++ ["delete"] in
  let args := if purge then args ++ ["--purge"] else args in
  let args := args ++ [releaseName] in
  args.

(** DeleteRelease removes the given release *)
Definition DeleteRelease (os : exec.Process) (releaseName : string)
    (purge : bool) (h : HelmCLI) : option error * HelmCLI :=
  runHelm os (DeleteRelease_args releaseName purge) h.

(** StatusRelease returns the output of the helm status command for a given
    release *)
Definition StatusRelease (os : exec.Process) (releaseName : string)
    (h : HelmCLI) : option error * HelmCLI :=
  runHelm os ["status"; releaseName] h.

(** Lint lints the helm chart from the current working directory and
    returns the warnings in the output *)
Definition Lint (os : exec.Process) (h : HelmCLI)
  : (string * option error) * HelmCLI :=
  runHelmWithOutput os ["lint"] h.

(** The argument vector [Version] builds. *)
Definition Version_args (tls : bool) : list string :=
  let args : list string := [] in
  let args := args ++ ["version"; "--short"] in
  let args := if tls then args ++ ["--tls"] else args in
  args.

(** Version executes the helm version command and returns its output.
    (The name is taken by the type of [BinVersion].) *)
Definition Version_ (os : exec.Process) (tls : bool) (h : HelmCLI)
  : (string * option error) * HelmCLI :=
  runHelmWithOutput os (Version_args tls) h.

(** PackageChart packages the chart from the current working directory *)
Definition PackageChart (os : exec.Process) (h : HelmCLI)
  : option error * HelmCLI :=
  runHelm os ["package"; CWD h] h.

End helm.

(** ** Histories of a Command *)

(** What the operation answered, call by call, in the loop of
    [backoff.Retry]. *)
Fixpoint Retry_log {S : Type} (fuel : nat) (clock : backoff.Clock)
    (operation : nat -> S -> option error * S)
    (b : backoff.ExponentialBackOff) (n : nat) (s : S)
  : list (option error) :=
  match fuel with
  | O => []
  | Datatypes.S fuel' =>
      match operation n s with
      | (None, _) => [None]
      | (Some err, s') =>
          Some err ::
            (if clock b n then []
             else Retry_log fuel' clock operation b (Datatypes.S n) s')
      end
  end.

(** The Command as [Run] has set it up when the loop starts. *)
Definition Run_setup (c : util.Command) : util.Command :=
  let c := util.set_ExponentialBackOff (Some backoff.NewExponentialBackOff) c in
  let c := if (util.Timeout c =? 0)%Z
           then util.set_Timeout util.three_minutes c else c in
  util.set_ExponentialBackOff
    (Some (backoff.setMaxElapsedTime (util.Timeout c)
                                     backoff.NewExponentialBackOff)) c.

(** The policy [Run] hands to [backoff.Retry]. *)
Definition Run_policy (c : util.Command) : backoff.ExponentialBackOff :=
  backoff.setMaxElapsedTime (util.Timeout (Run_setup c))
                            backoff.NewExponentialBackOff.

(** The attempts of one [Run], in order: [None] for a success, the error
    otherwise. *)
Definition Run_log (fuel : nat) (clock : backoff.Clock)
    (oss : nat -> exec.Process) (c : util.Command) : list (option error) :=
  Retry_log fuel clock (util.f oss) (Run_policy c) 0 ("", None, Run_setup c).

(** [runs c0 log c]: some sequence of calls of [RunWithoutRetry] and [Run],
    each against any behaviour of the processes and of the clock, leads from
    [c0] to [c]; [log] lists the attempts made on the way.  Between the
    calls the owner of the Command may overwrite its other fields, as
    [runHelm] overwrites the name, the directory and the arguments: the
    counter and the error list are what the calls alone write. *)
Inductive runs (c0 : util.Command)
  : list (option error) -> util.Command -> Prop :=
| runs_nil : runs c0 [] c0
| runs_RunWithoutRetry log c os :
    runs c0 log c ->
    runs c0 (log ++ [snd (util.run os c)]) (snd (util.RunWithoutRetry os c))
| runs_Run log c fuel clock oss res c' :
    runs c0 log c ->
    util.Run fuel clock oss c = Some (res, c') ->
    runs c0 (log ++ Run_log fuel clock oss c) c'
| runs_overwrite log c c' :
    runs c0 log c ->
    util.attempts c' = util.attempts c ->
    util.Errors c' = util.Errors c ->
    runs c0 log c'.

(** The errors of a log. *)
Definition failures (log : list (option error)) : list error :=
  omap id log.

(** [run] reads the name, the arguments, the directory and the two flags,
    and nothing else of the Command. *)
Definition same_invocation (c c' : util.Command) : Prop :=
  util.Name c = util.Name c' /\ util.Args c = util.Args c'
  /\ util.Dir c = util.Dir c' /\ util.Verbose c = util.Verbose c'
  /\ util.Quiet c = util.Quiet c'.

(** ** Maps built line by line *)

(** [last_entry entry rest k v]: some line of [rest] gives the entry
    [(k, v)] and no later line gives an entry for [k]. *)
Definition last_entry (entry : string -> option (string * string))
    (rest : list string) (k v : string) : Prop :=
  exists i line,
    rest !! i = Some line /\ entry line = Some (k, v)
    /\ forall j line' v',
         i < j -> rest !! j = Some line' -> entry line' <> Some (k, v').

(** A loop body that assigns [m[k] = v] for the entry of the line, if it
    has one. *)
Definition put (entry : string -> option (string * string))
    (m : gmap string string) (line : string) : gmap string string :=
  match entry line with
  | Some (k, v) => <[k := v]> m
  | None => m
  end.

(** What a line of [helm repo list] says: its first token with its second
    token, or with the empty string when it has one token only; nothing
    when the line is blank. *)
Definition repo_entry (line : string) : option (string * string) :=
  match strings.Fields line with
  | name :: URL :: _ => Some (name, URL)
  | name :: [] => Some (name, "")
  | [] => None
  end.

(** What a line of [helm list] says: with more than 3 tab-separated
    fields, the trimmed first field with the trimmed fourth; nothing
    otherwise. *)
Definition status_entry (line : string) : option (string * string) :=
  match strings.Split line strings.tab with
  | f0 :: _ :: _ :: f3 :: _ => Some (strings.TrimSpace f0, strings.TrimSpace f3)
  | _ => None
  end.

(** The number of occurrences of a byte. *)
Fixpoint count_byte (sep : ascii) (s : string) : nat :=
  match s with
  | EmptyString => 0
  | String c s' => (if Ascii.eqb c sep then 1 else 0) + count_byte sep s'
  end.

(** ** Example inputs *)

(** A process that exits with status 1, and one that prints [ok]. *)
Definition exits_1 : exec.Process :=
  fun _ _ _ => ("Error: no tiller", Some (errors.New "exit status 1")).
Definition prints_ok : exec.Process := fun _ _ _ => ("ok", None).

(** A helm that prints nothing and exits with status 0. *)
Definition prints_nothing : exec.Process := fun _ _ _ => ("", None).

Definition prints (output : string) : exec.Process :=
  fun _ _ _ => (output, None).

Definition quiet_list : util.Command :=
  util.mkCommand 0 [] "" "helm" ["list"] None 0 false true.

Definition helm2 : helm.HelmCLI := helm.NewHelmCLI "helm" 2%Z "" [].

(** A working directory with two charts two levels down, one a preview;
    the same with a chart at the top; and an empty one. *)
Definition join_slash (dir file : string) : string :=
  if String.eqb dir "" then file else dir +:+ "/" +:+ file.

Definition nested_charts : helm.FileSystem :=
  helm.mkFileSystem
    (fun _ => (false, None))
    (fun pattern =>
       if String.eqb pattern "*/*/Chart.yaml"
       then (["charts/preview/Chart.yaml"; "charts/app/Chart.yaml"], None)
       else ([], None))
    join_slash.

Definition top_chart : helm.FileSystem :=
  helm.mkFileSystem
    (fun path => (String.eqb path "/work/Chart.yaml", None))
    (helm.Glob nested_charts)
    join_slash.

Definition only_preview : helm.FileSystem :=
  helm.mkFileSystem
    (fun _ => (false, None))
    (fun pattern =>
       if String.eqb pattern "*/*/Chart.yaml"
       then (["charts/preview/Chart.yaml"], None)
       else ([], None))
    join_slash.

(** A line of output: fields with tabs between, and a line feed. *)
Definition row (fields : list string) : string :=
  String.concat (String strings.tab "") fields +:+ String strings.nl "".

(** The output of the spec's example, and one where a name comes twice. *)
Definition repo_list_example : string :=
  row ["NAME"; "URL"] +:+ row ["---"] +:+ row ["repo1"; "http://a"]
  +:+ row ["repo2"].

Definition repo_list_repeated : string :=
  row ["NAME"; "URL"] +:+ row ["---"] +:+ row ["stable"; "http://a"]
  +:+ row ["stable"; "http://b"].

Definition release_list_example : string :=
  row ["NAME"; "REVISION"; "UPDATED"; "STATUS"] +:+ row ["---"]
  +:+ row ["rel"; "x"; "y"; "DEPLOYED"] +:+ row ["short"; "x"; "y"].

Definition release_list_repeated : string :=
  row ["NAME"; "REVISION"; "UPDATED"; "STATUS"] +:+ row ["---"]
  +:+ row ["rel"; "1"; "y"; "FAILED"] +:+ row ["rel"; "2"; "y"; "DEPLOYED"].

(** What Go's [url.Parse] answers on the strings of the examples below: the
    empty string and a string without a scheme parse, with an empty host; a
    string that begins with a colon has no protocol scheme and does not
    parse.  Any other string is answered with an error; the examples use none. *)
Definition Parse_examples : url.Parser :=
  fun rawURL =>
    if String.eqb rawURL "" then inl (url.mkURL "" "" "")
    else if String.eqb rawURL "example.com/charts"
    then inl (url.mkURL "" "" "example.com/charts")
    else if String.eqb rawURL "http://example.com/x"
    then inl (url.mkURL "http" "example.com" "/x")
    else if String.eqb rawURL "http://example.com/y"
    then inl (url.mkURL "http" "example.com" "/y")
    else if String.eqb rawURL "http://other.com"
    then inl (url.mkURL "http" "other.com" "")
    else inr (errors.New "missing protocol scheme").

(** The order of [map_to_list], one of the orders a [range] may take. *)
Definition range_in_key_order (m : gmap string string)
  : list (string * string) := map_to_list m.

Definition repo_list_same_host : string :=
  row ["NAME"; "URL"] +:+ row ["---"] +:+ row ["a"; "http://example.com/y"].

Definition repo_list_other_host : string :=
  row ["NAME"; "URL"] +:+ row ["---"] +:+ row ["a"; "http://other.com"].

Definition repo_list_no_URL : string :=
  row ["NAME"; "URL"] +:+ row ["---"] +:+ row ["local"].

Definition repo_list_malformed : string :=
  row ["NAME"; "URL"] +:+ row ["---"]
  +:+ row ["stable"; "http://example.com/y"] +:+ row ["broken"; ":bad"].

(** ** The claims C1, C2 and C3 as they are stated *)

(** C1 as it is stated: whenever [repo list] succeeds, [ListRepos] returns
    a map in which the first token of every line after the second maps to
    that line's second token, or to the empty string when the line has no
    second token. *)
Definition ListRepos_as_stated (os : exec.Process) (h : helm.HelmCLI) : Prop :=
  forall output,
    fst (helm.runHelmWithOutput os ["repo"; "list"] h) = (output, None) ->
    exists repos,
      fst (helm.ListRepos os h) = Returns (repos, None)
      /\ forall l name,
           l ∈ drop 2 (strings.Split output strings.nl) ->
           (forall URL more,
               strings.Fields l = name :: URL :: more ->
               repos !! name = Some URL)
           /\ (strings.Fields l = [name] -> repos !! name = Some "").

(** C2 as it is stated: whenever [list] succeeds, [StatusReleases] returns
    a map in which, for every line after the second with more than 3 tab
    fields, the trimmed first field maps to the trimmed fourth, and to
    which the lines with 3 fields or fewer contribute nothing. *)
Definition StatusReleases_as_stated (os : exec.Process) (h : helm.HelmCLI)
  : Prop :=
  forall output,
    fst (helm.ListCharts os h) = (output, None) ->
    exists statusMap,
      fst (helm.StatusReleases os h) = Returns (statusMap, None)
      /\ (forall l f0 f3,
             l ∈ drop 2 (strings.Split output strings.nl) ->
             3 < length (strings.Split l strings.tab) ->
             strings.Split l strings.tab !! 0 = Some f0 ->
             strings.Split l strings.tab !! 3 = Some f3 ->
             statusMap !! strings.TrimSpace f0 = Some (strings.TrimSpace f3))
      /\ (forall release status,
             statusMap !! release = Some status ->
             exists l f0 f3,
               l ∈ drop 2 (strings.Split output strings.nl)
               /\ 3 < length (strings.Split l strings.tab)
               /\ strings.Split l strings.tab !! 0 = Some f0
               /\ strings.Split l strings.tab !! 3 = Some f3
               /\ release = strings.TrimSpace f0
               /\ status = strings.TrimSpace f3).

(** C3 as it is stated, once the repositories are listed: when the
    candidate and every stored URL parse, the answer is [false] exactly
    when some stored URL has the candidate's host; when the candidate or
    some stored URL does not parse, the call returns an error. *)
Definition IsRepoMissing_as_stated (Parse : url.Parser)
    (range : gmap string string -> list (string * string))
    (os : exec.Process) (h : helm.HelmCLI) (URL : string) : Prop :=
  forall repos,
    fst (helm.ListRepos os h) = Returns (repos, None) ->
    let result := fst (helm.IsRepoMissing Parse range os URL h) in
    let unparsed rawURL := exists err, Parse rawURL = inr err in
    ((forall searched,
         Parse URL = inl searched ->
         (forall name repoURL,
             repos !! name = Some repoURL -> ~ unparsed repoURL) ->
         exists missing,
           result = Returns (missing, None)
           /\ (missing = false
               <-> exists name repoURL u,
                     repos !! name = Some repoURL
                     /\ Parse repoURL = inl u
                     /\ url.Host u = url.Host searched))
     /\ (unparsed URL
         \/ (exists name repoURL,
                repos !! name = Some repoURL /\ unparsed repoURL) ->
         exists missing err, result = Returns (missing, Some err))).

(** C6 as it is stated, for the runs that start at [c0]: when every
    attempt failed, [DidFail] and [DidError] hold; when some attempt
    succeeded, [DidFail] does not hold and the counter is above the number
    of errors.  (The two equivalences that open the claim hold as stated.) *)
Definition DidFail_DidError_as_stated (c0 : util.Command) : Prop :=
  forall log c,
    runs c0 log c ->
    (Forall is_Some log -> util.DidFail c = true /\ util.DidError c = true)
    /\ (None ∈ log ->
        util.DidFail c = false
        /\ (util.len (util.Errors c) < util.attempts c)%Z).

(** A Command built by a composite literal that names [Errors]. *)
Definition built_with_error : util.Command :=
  util.mkCommand 0 [errors.New "earlier"] "" "helm" ["list"] None 0 false false.

(** ** Further definitions for the properties below *)

(** The second token of a line, if it has two. *)
Definition second_token (l : string) : list string :=
  match strings.Fields l with
  | _ :: v :: _ => [v]
  | _ => []
  end.

(** A client whose runner is quiet. *)
Definition quiet_helm : helm.HelmCLI :=
  helm.mkHelmCLI "helm" 2%Z "" quiet_list.

(** Two repositories with different hosts. *)
Definition repo_list_two_hosts : string :=
  row ["NAME"; "URL"] +:+ row ["---"] +:+ row ["a"; "http://example.com/y"]
  +:+ row ["b"; "http://other.com"].

(** Another order a [range] may take. *)
Definition range_reversed (m : gmap string string)
  : list (string * string) := reverse (map_to_list m).

(** * Properties *)

(** ** White space and fields *)

(** U+00A0, a white-space rune of two bytes. *)
Example Fields_no_break_space :
  strings.Fields ("a" +:+ String (ascii_of_N 194) (String (ascii_of_N 160) "b")
                  +:+ " c ")
  = ["a"; "b"; "c"].
Proof. reflexivity. Qed.

Example Fields_tabs_and_spaces :
  strings.Fields (" repo1" +:+ String strings.tab " http://a ")
  = ["repo1"; "http://a"].
Proof. reflexivity. Qed.

Example TrimSpace_both_ends :
  strings.TrimSpace (String strings.nl " a b " +:+ String strings.tab "")
  = "a b".
Proof. reflexivity. Qed.

Example Split_keeps_empty_pieces :
  strings.Split ("a" +:+ String strings.nl (String strings.nl "b")) strings.nl
  = ["a"; ""; "b"].
Proof. reflexivity. Qed.

Example HasSuffix_preview :
  strings.HasSuffix "charts/preview/Chart.yaml" "/preview/Chart.yaml" = true
  /\ strings.HasSuffix "preview/Chart.yaml" "/preview/Chart.yaml" = false.
Proof. by split. Qed.

Example Itoa_300 : strconv.Itoa 300 = "300" /\ strconv.Itoa (-5) = "-5".
Proof. by split. Qed.

Section TrimSpace_Fields.

Import strings.

(** Leading white space gives no field. *)
Lemma fieldsFrom_trimLeft s : forall k,
  fieldsFrom (trimLeft s k) 0 "" = fieldsFrom s k "".
Proof.
  induction s as [|c s IH]; intros k; [by destruct k|].
  destruct k as [|k]; cbn [trimLeft fieldsFrom]; [|apply IH].
  destruct (spaceWidth (String c s)) as [|w] eqn:Hw.
  - cbn [fieldsFrom]. by rewrite Hw.
  - rewrite IH. reflexivity.
Qed.

(** When only white space is left, the field being read is the last. *)
Lemma fieldsFrom_keepLen_0 s : forall k cur,
  keepLen s k = 0 -> fieldsFrom s k cur = emit cur.
Proof.
  induction s as [|c s IH]; intros k cur Hk; [reflexivity|].
  cbn [keepLen fieldsFrom] in *.
  destruct k as [|k].
  - destruct (spaceWidth (String c s)) as [|w]; [discriminate|].
    destruct (keepLen s w) eqn:Hs; [|discriminate].
    by rewrite (IH _ _ Hs), app_nil_r.
  - destruct (keepLen s k) eqn:Hs; [|discriminate].
    by apply IH.
Qed.

(** What is kept covers the white-space rune being passed. *)
Lemma keepLen_covers s : forall k r, keepLen s k = S r -> k <= S r.
Proof.
  induction s as [|c s IH]; intros k r Hk; [discriminate|].
  destruct k as [|k]; [lia|].
  cbn [keepLen] in Hk.
  destruct (keepLen s k) as [|r'] eqn:Hs; [discriminate|].
  injection Hk as <-. apply IH in Hs. lia.
Qed.

Lemma spaceWidth_cut_0 c s n :
  spaceWidth (String c s) = 0 -> spaceWidth (String c (substring 0 n s)) = 0.
Proof.
  unfold spaceWidth.
  destruct (asciiSpace c); [discriminate|].
  destruct s as [|d s]; [by destruct n|].
  destruct n as [|n]; [reflexivity|]. cbn [substring].
  destruct (byte_is c 194); [done|].
  destruct s as [|e s]; [by destruct n|].
  destruct n as [|n]; [reflexivity|]. cbn [substring]. done.
Qed.

Lemma spaceWidth_cut_S c s n w :
  spaceWidth (String c s) = S w -> w <= n ->
  spaceWidth (String c (substring 0 n s)) = S w.
Proof.
  unfold spaceWidth.
  destruct (asciiSpace c); [done|].
  destruct s as [|d s]; [discriminate|].
  destruct (byte_is c 194) eqn:Hc.
  - destruct n as [|n].
    + destruct (byte_is d 133 || byte_is d 160); intros [= <-]; lia.
    + cbn [substring]. tauto.
  - destruct s as [|e s]; [discriminate|].
    intros Hw Hn.
    assert (w = 2) as ->.
    { repeat (match type of Hw with
              | context [if ?x then _ else _] => destruct x
              end; try discriminate); by injection Hw as <-. }
    destruct n as [|[|n]]; [lia | lia |].
    cbn [substring]. exact Hw.
Qed.

(** Trailing white space gives no field. *)
Lemma fieldsFrom_cut s : forall k cur,
  fieldsFrom (substring 0 (keepLen s k) s) k cur = fieldsFrom s k cur.
Proof.
  induction s as [|c s IH]; intros k cur; [by destruct k|].
  destruct k as [|k]; cbn [keepLen].
  - destruct (spaceWidth (String c s)) as [|w] eqn:Hw.
    + cbn [substring fieldsFrom].
      rewrite (spaceWidth_cut_0 _ _ _ Hw), Hw. apply IH.
    + destruct (keepLen s w) as [|r] eqn:Hs.
      * cbn [substring fieldsFrom]. rewrite Hw.
        by rewrite (fieldsFrom_keepLen_0 _ _ _ Hs), app_nil_r.
      * cbn [substring fieldsFrom].
        rewrite (spaceWidth_cut_S _ _ (S r) _ Hw), Hw
          by (by apply keepLen_covers in Hs).
        f_equal. rewrite <- Hs. apply IH.
  - destruct (keepLen s k) as [|r] eqn:Hs.
    + cbn [substring fieldsFrom]. symmetry.
      by apply fieldsFrom_keepLen_0.
    + cbn [substring fieldsFrom]. rewrite <- Hs. apply IH.
Qed.

(** [TrimSpace] before [Fields] changes nothing. *)
Lemma Fields_TrimSpace s : Fields (TrimSpace s) = Fields s.
Proof.
  unfold Fields, TrimSpace.
  by rewrite fieldsFrom_cut, fieldsFrom_trimLeft.
Qed.

End TrimSpace_Fields.

(** ** The bookkeeping of a Command *)

Lemma int_wrap_small z : (- 2 ^ 63 <= z < 2 ^ 63)%Z -> int_wrap z = z.
Proof.
  intros Hz. unfold int_wrap.
  rewrite Z.mod_small by lia. lia.
Qed.

Lemma record_attempts e c :
  util.attempts (util.record e c) = int_wrap (util.attempts c + 1).
Proof. destruct e; reflexivity. Qed.

Lemma record_Errors e c :
  util.Errors (util.record e c) = util.Errors c ++ failures [e].
Proof. destruct e; simpl; [reflexivity | by rewrite app_nil_r]. Qed.

Lemma same_invocation_trans c1 c2 c3 :
  same_invocation c1 c2 -> same_invocation c2 c3 -> same_invocation c1 c3.
Proof.
  unfold same_invocation. intros (?&?&?&?&?) (?&?&?&?&?).
  repeat split; congruence.
Qed.

Lemma same_invocation_record e c : same_invocation c (util.record e c).
Proof. destruct e; by repeat split. Qed.

Lemma same_invocation_setup c : same_invocation c (Run_setup c).
Proof. unfold Run_setup. simpl. destruct (_ =? _)%Z; by repeat split. Qed.

Lemma run_same_invocation os c c' :
  same_invocation c c' -> util.run os c = util.run os c'.
Proof.
  intros (Hn & Ha & Hd & Hv & Hq).
  unfold util.run, util.failed_to_run, util.IsQuiet, util.IsVerbose.
  by rewrite Hn, Ha, Hd, Hv, Hq.
Qed.

Lemma int_wrap_add_l x y : int_wrap (int_wrap x + y) = int_wrap (x + y).
Proof.
  unfold int_wrap.
  replace ((x + 2 ^ 63) mod 2 ^ 64 - 2 ^ 63 + y + 2 ^ 63)%Z
    with ((x + 2 ^ 63) mod 2 ^ 64 + y)%Z by lia.
  rewrite Zplus_mod_idemp_l.
  f_equal. f_equal. lia.
Qed.

Lemma int_wrap_idem x : int_wrap (int_wrap x) = int_wrap x.
Proof.
  pose proof (int_wrap_add_l x 0) as H. by rewrite !Z.add_0_r in H.
Qed.

Lemma failures_app l1 l2 : failures (l1 ++ l2) = failures l1 ++ failures l2.
Proof. unfold failures. apply omap_app. Qed.

Section Retry.

Variable clock : backoff.Clock.
Variable oss : nat -> exec.Process.
Variable b : backoff.ExponentialBackOff.

(** The loop returns what the last call of the closure left in [r], [e]
    and the Command; the Command has grown by the log. *)
Lemma Retry_effect fuel : forall n r e c res r' e' c',
  backoff.Retry fuel clock (util.f oss) b n (r, e, c)
    = Some (res, (r', e', c')) ->
  let log := Retry_log fuel clock (util.f oss) b n (r, e, c) in
  util.Errors c' = util.Errors c ++ failures log
  /\ util.attempts c'
     = int_wrap (util.attempts c + Z.of_nat (length log))
  /\ same_invocation c c'
  /\ e' = res
  /\ last log = Some res.
Proof.
  induction fuel as [|fuel IH]; intros n r e c res r' e' c' H; [discriminate|].
  cbn [backoff.Retry Retry_log util.f] in H |- *.
  destruct (util.run (oss n) c) as [r1 e1] eqn:Hrun.
  destruct e1 as [err|].
  - destruct (clock b n) eqn:Hstop.
    + injection H as <- <- <- <-.
      by repeat split.
    + apply IH in H. destruct H as (HE & HA & HS & He & Hl).
      rewrite HE, HA, record_attempts, record_Errors.
      rewrite int_wrap_add_l.
      split; [|split; [|split; [|split]]].
      * simpl. by rewrite <- app_assoc.
      * f_equal. simpl length. lia.
      * eapply same_invocation_trans; [apply same_invocation_record|].
        exact HS.
      * exact He.
      * destruct (Retry_log fuel clock (util.f oss) b (S n)
                    (r1, Some err, util.record (Some err) c));
          [discriminate | by rewrite <- Hl].
  - injection H as <- <- <- <-.
    repeat split; try reflexivity.
    simpl. by rewrite app_nil_r.
Qed.

End Retry.

Lemma Run_unfold fuel clock oss c :
  util.Run fuel clock oss c =
  match backoff.Retry fuel clock (util.f oss) (Run_policy c) 0
                      ("", None, Run_setup c) with
  | None => None
  | Some (Some err, (_, _, c)) => Some (("", Some err), c)
  | Some (None, (r, _, c)) => Some ((r, None), c)
  end.
Proof. reflexivity. Qed.

Lemma Run_setup_Errors c : util.Errors (Run_setup c) = util.Errors c.
Proof. unfold Run_setup. simpl. by destruct (_ =? _)%Z. Qed.

Lemma Run_setup_attempts c : util.attempts (Run_setup c) = util.attempts c.
Proof. unfold Run_setup. simpl. by destruct (_ =? _)%Z. Qed.

(** One [Run] appends its failures to the errors and adds the number of its
    attempts to the counter; the error it returns, if any, is the last one
    it logged. *)
Lemma Run_effect fuel clock oss c res c' :
  util.Run fuel clock oss c = Some (res, c') ->
  let log := Run_log fuel clock oss c in
  util.Errors c' = util.Errors c ++ failures log
  /\ util.attempts c' = int_wrap (util.attempts c + Z.of_nat (length log))
  /\ same_invocation c c'
  /\ last log = Some (snd res).
Proof.
  rewrite Run_unfold. unfold Run_log.
  destruct (backoff.Retry _ _ _ _ _ _) as [[e [[r' e'] c1]]|] eqn:HR;
    [|discriminate].
  apply Retry_effect in HR. destruct HR as (HE & HA & HS & _ & Hl).
  rewrite Run_setup_Errors in HE. rewrite Run_setup_attempts in HA.
  assert (HS' : same_invocation c c1)
    by (eapply same_invocation_trans; [apply same_invocation_setup | exact HS]).
  intros H.
  destruct e as [err|]; injection H as <- <-;
    (split; [|split; [|split]]); assumption.
Qed.

(** Along any history the errors are the failures of the log and the
    counter is the length of the log, modulo 2^64. *)
Lemma runs_bookkeeping c0 log c :
  runs c0 log c ->
  util.Errors c = util.Errors c0 ++ failures log
  /\ int_wrap (util.attempts c)
     = int_wrap (util.attempts c0 + Z.of_nat (length log)).
Proof.
  induction 1 as [|log c os _ [IHE IHA]|log c fuel clock oss res c' _ [IHE IHA] HR
                 |log c c' _ [IHE IHA] Ha He].
  - split; [by rewrite app_nil_r | by rewrite Z.add_0_r].
  - unfold util.RunWithoutRetry.
    destruct (util.run os c) as [r e]. cbn [snd].
    rewrite record_Errors, record_attempts, IHE, failures_app.
    split; [by rewrite app_assoc|].
    rewrite int_wrap_idem, <- (int_wrap_add_l (util.attempts c)), IHA.
    rewrite int_wrap_add_l, length_app. f_equal. cbn [length]. lia.
  - apply Run_effect in HR. destruct HR as (HE & HA & _ & _).
    rewrite HE, HA, IHE, failures_app.
    split; [by rewrite app_assoc|].
    rewrite int_wrap_idem, <- (int_wrap_add_l (util.attempts c)), IHA.
    rewrite int_wrap_add_l, length_app. f_equal. lia.
  - by rewrite He, Ha.
Qed.

(** The counter stays a 64-bit number. *)
Lemma runs_attempts_wrapped c0 log c :
  runs c0 log c ->
  int_wrap (util.attempts c0) = util.attempts c0 ->
  int_wrap (util.attempts c) = util.attempts c.
Proof.
  induction 1 as [|log c os _ _|log c fuel clock oss res c' _ _ HR
                 |log c c' _ IH Ha _]; intros H0.
  - exact H0.
  - unfold util.RunWithoutRetry. destruct (util.run os c) as [r e].
    cbn [snd]. by rewrite record_attempts, int_wrap_idem.
  - apply Run_effect in HR. destruct HR as (_ & -> & _).
    by rewrite int_wrap_idem.
  - rewrite Ha. by apply IH.
Qed.

(** An operation of the helm client is a step of a history of its runner:
    it overwrites the name, the directory and the arguments, and runs
    once. *)
Lemma runs_runHelm c0 log os args h :
  runs c0 log (helm.Runner h) ->
  runs c0 (log ++ [fst (helm.runHelm os args h)])
       (helm.Runner (snd (helm.runHelm os args h))).
Proof.
  intros Hruns.
  set (r := util.set_Args args
              (util.set_Dir (helm.CWD h)
                 (util.set_Name (helm.Binary h) (helm.Runner h)))).
  assert (Hr : runs c0 log r)
    by (by apply (runs_overwrite c0 log (helm.Runner h) r)).
  pose proof (runs_RunWithoutRetry c0 log r os Hr) as Hstep.
  unfold helm.runHelm. fold r.
  unfold util.RunWithoutRetry in *.
  by destruct (util.run os r) as [out err].
Qed.

Lemma failures_all_failed log :
  Forall is_Some log -> length (failures log) = length log.
Proof.
  induction 1 as [|e log [err ->] _ IH]; [reflexivity|].
  cbn. unfold failures in IH. by rewrite IH.
Qed.

Lemma failures_length_le log : length (failures log) <= length log.
Proof.
  induction log as [|[e|] log IH]; cbn; unfold failures in *; cbn; lia.
Qed.

Lemma failures_some_succeeded log :
  None ∈ log -> length (failures log) < length log.
Proof.
  induction log as [|e log IH]; intros Hin; [by apply not_elem_of_nil in Hin|].
  apply elem_of_cons in Hin. destruct Hin as [<-|Hin].
  - pose proof (failures_length_le log). cbn. unfold failures in *. lia.
  - specialize (IH Hin). destruct e; cbn; unfold failures in *; cbn; lia.
Qed.

(** C10.  A Command that has never been run (no attempt, no error) reports
    [DidFail] although it does not report [DidError]: zero errors equal zero
    attempts. *)
Theorem DidFail_before_any_attempt (c : util.Command) :
  util.attempts c = 0%Z -> util.Errors c = [] ->
  util.DidFail c = true /\ util.DidError c = false.
Proof.
  intros Ha He. unfold util.DidFail, util.DidError.
  by rewrite Ha, He.
Qed.

Lemma DidFail_before_any_attempt_witness :
  util.DidFail (util.new "helm" ["list"] "") = true
  /\ util.DidError (util.new "helm" ["list"] "") = false.
Proof.
  apply (DidFail_before_any_attempt (util.new "helm" ["list"] ""));
    reflexivity.
Defined.

Lemma DidError_iff c : util.DidError c = true <-> util.Errors c <> [].
Proof.
  unfold util.DidError, util.len.
  destruct (util.Errors c) as [|e es]; simpl; split; try done.
Qed.

Lemma DidFail_iff c :
  util.DidFail c = true <-> util.len (util.Errors c) = util.attempts c.
Proof.
  unfold util.DidFail.
  destruct (Z.eqb_spec (util.len (util.Errors c)) (util.attempts c));
    split; done.
Qed.

(** C6 fails as stated twice.  After no run at all, a sequence in which
    every attempt failed, [DidError] does not hold (C10).  And from a
    Command that was built with an error in its list, after one successful
    run [DidFail] holds: one error, one attempt. *)
Lemma DidFail_DidError_as_stated_fails :
  ~ DidFail_DidError_as_stated (util.new "helm" ["list"] "")
  /\ ~ DidFail_DidError_as_stated built_with_error.
Proof.
  split; intros H.
  - destruct (H [] _ (runs_nil _)) as [Hall _].
    destruct (Hall (List.Forall_nil _)) as [_ HDid]. discriminate.
  - pose proof (runs_RunWithoutRetry built_with_error _ _ prints_ok
                  (runs_nil _)) as Hruns.
    destruct (H _ _ Hruns) as [_ Hsome].
    destruct Hsome as [HFail _];
      [apply list_elem_of_In; left; reflexivity | discriminate].
Qed.

(** C6, amended.  [DidError] says that the error list is not empty and
    [DidFail] that there are as many errors as attempts, for every
    Command.  So, from a Command that has not been run (no attempt, no
    error), after any runs, be they calls of [RunWithoutRetry] or of [Run]
    that returned, with the other fields overwritten between them as the
    helm client does, and with fewer than 2^63 attempts in all, so that
    the 64-bit counter has not wrapped: when at least one attempt was made
    and every attempt failed, [DidFail] and [DidError] both hold; when some
    attempt succeeded, [DidFail] does not hold and the counter is strictly
    above the number of errors. *)
Theorem DidFail_DidError_after_runs :
  (forall c : util.Command,
      (util.DidError c = true <-> util.Errors c <> [])
      /\ (util.DidFail c = true
          <-> util.len (util.Errors c) = util.attempts c))
  /\ (forall (c0 c : util.Command) (log : list (option error)),
         util.attempts c0 = 0%Z -> util.Errors c0 = [] ->
         runs c0 log c ->
         (Z.of_nat (length log) < 2 ^ 63)%Z ->
         (log <> [] -> Forall is_Some log ->
          util.DidFail c = true /\ util.DidError c = true)
         /\ (None ∈ log ->
             util.DidFail c = false
             /\ (util.len (util.Errors c) < util.attempts c)%Z)).
Proof.
  split; [intros c; split; [apply DidError_iff | apply DidFail_iff]|].
  intros c0 c log Ha He Hruns Hlen.
  destruct (runs_bookkeeping _ _ _ Hruns) as [HE HA].
  rewrite He in HE. rewrite Ha, Z.add_0_l in HA. simpl in HE.
  assert (Hatt : util.attempts c = Z.of_nat (length log)).
  { rewrite <- (int_wrap_small (Z.of_nat (length log))) by lia.
    rewrite <- HA. symmetry.
    apply (runs_attempts_wrapped _ _ _ Hruns). by rewrite Ha. }
  split.
  - intros Hne Hall. split.
    + apply DidFail_iff. unfold util.len.
      by rewrite HE, Hatt, failures_all_failed.
    + apply DidError_iff. rewrite HE. intros Hnil.
      apply (f_equal length) in Hnil.
      rewrite failures_all_failed in Hnil by done.
      destruct log; [done | discriminate].
  - intros Hin.
    pose proof (failures_some_succeeded _ Hin) as Hlt.
    assert (Hlt' : (util.len (util.Errors c) < util.attempts c)%Z)
      by (unfold util.len; rewrite HE, Hatt; lia).
    split; [|exact Hlt'].
    destruct (util.DidFail c) eqn:HF; [|reflexivity].
    apply DidFail_iff in HF. lia.
Qed.

(** A [Run] that fails twice and is then told to stop, and after it an
    operation of the client that succeeds, on the runner of a new client. *)
Lemma DidFail_DidError_after_runs_witness :
  match util.Run 5 (fun _ i => (1 <=? i)%nat) (fun _ => exits_1)
                 (helm.Runner helm2) with
  | Some (_, c1) =>
      (util.DidFail c1 = true /\ util.DidError c1 = true)
      /\ (let h2 := snd (helm.runHelm prints_ok ["repo"; "update"]
                           (helm.set_Runner c1 helm2)) in
          util.DidFail (helm.Runner h2) = false
          /\ (util.len (util.Errors (helm.Runner h2))
              < util.attempts (helm.Runner h2))%Z)
  | None => False
  end.
Proof.
  set (c0 := helm.Runner helm2).
  set (clock := (fun _ i => (1 <=? i)%nat) : backoff.Clock).
  set (oss := (fun _ : nat => exits_1)).
  assert (Hlog : Run_log 5 clock oss c0
                 = [snd (util.run exits_1 c0); snd (util.run exits_1 c0)])
    by reflexivity.
  destruct (util.Run 5 clock oss c0) as [[res c1]|] eqn:HRun;
    [|vm_compute in HRun; discriminate].
  pose proof (runs_Run c0 _ _ _ _ _ _ _ (runs_nil c0) HRun) as H1.
  rewrite Hlog in H1. cbn [app] in H1.
  pose proof (runs_runHelm c0 _ prints_ok ["repo"; "update"]
                (helm.set_Runner c1 helm2) H1) as H2.
  assert (Hok : fst (helm.runHelm prints_ok ["repo"; "update"]
                       (helm.set_Runner c1 helm2)) = None).
  { destruct (Run_effect _ _ _ _ _ _ HRun)
      as (_ & _ & (_ & _ & _ & Hv & Hq) & _).
    unfold helm.runHelm, util.RunWithoutRetry, util.run, util.IsQuiet,
      util.IsVerbose.
    cbn [helm.Runner helm.set_Runner util.Verbose util.Quiet util.set_Args
         util.set_Dir util.set_Name].
    by rewrite <- Hv, <- Hq. }
  rewrite Hok in H2.
  split.
  - apply (proj2 DidFail_DidError_after_runs c0 c1 _ eq_refl eq_refl H1);
      [reflexivity | discriminate | repeat constructor; by eexists].
  - apply (proj2 DidFail_DidError_after_runs c0 _ _ eq_refl eq_refl H2);
      [reflexivity|].
    apply list_elem_of_In. right. right. left. reflexivity.
Defined.

(** ** Quiet mode *)

(** C9.  What the code does in quiet mode: [run] sets both streams to the
    discarding writer and then calls [CombinedOutput], which refuses a
    command whose standard output is already set.  Whatever the process
    would have done, it is not launched, and [run] returns the empty text
    with that error wrapped. *)
Theorem run_quiet_never_launches (os : exec.Process) (c : util.Command) :
  util.IsQuiet c = true ->
  util.run os c
  = ("", Some (errors.Wrap (errors.New "exec: Stdout already set")
                           (util.failed_to_run c ""))).
Proof.
  intros Hq. unfold util.run. rewrite Hq.
  by destruct (String.eqb (util.Dir c) "").
Qed.

Lemma run_quiet_never_launches_witness :
  util.IsQuiet quiet_list = true
  /\ util.run prints_ok quiet_list
     = ("", Some (errors.Wrap (errors.New "exec: Stdout already set")
                              (util.failed_to_run quiet_list "")))
  /\ util.run prints_ok (util.new "helm" ["list"] "") = ("ok", None).
Proof.
  split; [reflexivity|].
  split; [apply (run_quiet_never_launches prints_ok quiet_list); reflexivity|].
  reflexivity.
Defined.

(** ** The retry loop *)

Section Run.

Variable clock : backoff.Clock.
Variable oss : nat -> exec.Process.
Variable b : backoff.ExponentialBackOff.
Variable c : util.Command.

(** While the attempts fail and the clock lets the loop go on, the loop
    goes on, against the same invocation. *)
Lemma Retry_skip (d : nat) : forall (k fuel : nat) r e c1,
  same_invocation c c1 ->
  (forall i, k <= i < k + d ->
     exists err, snd (util.run (oss i) c) = Some err /\ clock b i = false) ->
  exists r' e' c2,
    same_invocation c c2
    /\ util.Timeout c2 = util.Timeout c1
    /\ util.ExponentialBackOff c2 = util.ExponentialBackOff c1
    /\ backoff.Retry (d + fuel) clock (util.f oss) b k (r, e, c1)
       = backoff.Retry fuel clock (util.f oss) b (k + d) (r', e', c2).
Proof.
  induction d as [|d IH]; intros k fuel r e c1 Hsame Hfail.
  - exists r, e, c1. by rewrite Nat.add_0_r.
  - destruct (Hfail k ltac:(lia)) as (err & Herr & Hgo).
    cbn [Nat.add backoff.Retry util.f].
    rewrite <- (run_same_invocation (oss k) c c1 Hsame).
    destruct (util.run (oss k) c) as [r1 e1]. cbn [snd] in Herr. subst e1.
    rewrite Hgo.
    destruct (IH (S k) fuel r1 (Some err) (util.record (Some err) c1))
      as (r' & e' & c2 & Hsame2 & HT & HB & HR).
    + eapply same_invocation_trans; [exact Hsame|].
      apply same_invocation_record.
    + intros i Hi. apply Hfail. lia.
    + exists r', e', c2. repeat (split; [assumption|]).
      rewrite HR. f_equal. lia.
Qed.

(** The round in which the loop ends. *)
Lemma Retry_last fuel k r e c1 text res :
  same_invocation c c1 ->
  util.run (oss k) c = (text, res) ->
  (is_Some res -> clock b k = true) ->
  backoff.Retry (S fuel) clock (util.f oss) b k (r, e, c1)
  = Some (res, (text, res, util.record res c1)).
Proof.
  intros Hsame Hrun Hstop.
  cbn [backoff.Retry util.f].
  rewrite <- (run_same_invocation (oss k) c c1 Hsame), Hrun.
  destruct res as [err|]; [|reflexivity].
  by rewrite Hstop.
Qed.

End Run.

Lemma record_Timeout e c : util.Timeout (util.record e c) = util.Timeout c.
Proof. by destruct e. Qed.

Lemma record_ExponentialBackOff e c :
  util.ExponentialBackOff (util.record e c) = util.ExponentialBackOff c.
Proof. by destruct e. Qed.

(** C7.  [Run] sets the timeout to 3 minutes when it is zero and gives the
    retry loop a policy whose max elapsed time is the timeout.  Every
    attempt runs the same invocation.  If the attempts before number [n]
    fail while the clock lets the loop continue, then: when attempt [n]
    succeeds, [Run] returns its trimmed output and no error; when attempt
    [n] fails and the clock says stop, [Run] returns that attempt's error,
    the last one it made.  The loop needs [n + 1] rounds for this. *)
Theorem Run_retries_until_success_or_stop
    (clock : backoff.Clock) (oss : nat -> exec.Process) (c : util.Command)
    (n fuel : nat) :
  n < fuel ->
  (forall i, i < n ->
     exists err, snd (util.run (oss i) c) = Some err
                 /\ clock (Run_policy c) i = false) ->
  let timeout :=
    if (util.Timeout c =? 0)%Z then (3 * 60 * 1000000000)%Z
    else util.Timeout c in
  backoff.MaxElapsedTime (Run_policy c) = timeout
  /\ (forall text,
        util.run (oss n) c = (text, None) ->
        exists c',
          util.Run fuel clock oss c = Some ((text, None), c')
          /\ util.Timeout c' = timeout
          /\ util.ExponentialBackOff c' = Some (Run_policy c)
          /\ last (Run_log fuel clock oss c) = Some None)
  /\ (forall text err,
        util.run (oss n) c = (text, Some err) ->
        clock (Run_policy c) n = true ->
        exists c',
          util.Run fuel clock oss c = Some (("", Some err), c')
          /\ util.Timeout c' = timeout
          /\ util.ExponentialBackOff c' = Some (Run_policy c)
          /\ last (Run_log fuel clock oss c) = Some (Some err)).
Proof.
  intros Hfuel Hfail timeout.
  assert (HT : util.Timeout (Run_setup c) = timeout).
  { unfold Run_setup, timeout. simpl. by destruct (util.Timeout c =? 0)%Z. }
  assert (HB : util.ExponentialBackOff (Run_setup c) = Some (Run_policy c))
    by reflexivity.
  assert (Hend : forall text res,
             util.run (oss n) c = (text, res) ->
             (is_Some res -> clock (Run_policy c) n = true) ->
             exists c',
               backoff.Retry fuel clock (util.f oss) (Run_policy c) 0
                             ("", None, Run_setup c)
               = Some (res, (text, res, c'))
               /\ util.Timeout c' = timeout
               /\ util.ExponentialBackOff c' = Some (Run_policy c)).
  { intros text res Hrun Hstop.
    destruct (Retry_skip clock oss (Run_policy c) c n 0 (fuel - n)
                "" None (Run_setup c) (same_invocation_setup c))
      as (r' & e' & c2 & Hsame & HT2 & HB2 & HR).
    { intros i Hi. apply Hfail. lia. }
    replace (n + (fuel - n)) with fuel in HR by lia.
    replace (fuel - n) with (S (fuel - n - 1)) in HR by lia.
    rewrite (Retry_last clock oss (Run_policy c) c _ _ _ _ _ text res)
      in HR by assumption.
    exists (util.record res c2).
    rewrite record_Timeout, record_ExponentialBackOff.
    repeat split; congruence. }
  split; [by rewrite <- HT|].
  split.
  - intros text Hrun.
    destruct (Hend text None Hrun) as (c' & HR & HT' & HB').
    { intros [? ?]; discriminate. }
    exists c'.
    assert (HRun : util.Run fuel clock oss c = Some ((text, None), c'))
      by (by rewrite Run_unfold, HR).
    repeat (split; [assumption|]).
    by destruct (Run_effect _ _ _ _ _ _ HRun) as (_ & _ & _ & ->).
  - intros text err Hrun Hstop.
    destruct (Hend text (Some err) Hrun) as (c' & HR & HT' & HB').
    { by intros _. }
    exists c'.
    assert (HRun : util.Run fuel clock oss c = Some (("", Some err), c'))
      by (by rewrite Run_unfold, HR).
    repeat (split; [assumption|]).
    by destruct (Run_effect _ _ _ _ _ _ HRun) as (_ & _ & _ & ->).
Qed.

Lemma Run_retries_until_success_or_stop_witness :
  let c := util.new "helm" ["version"] "" in
  let twice_down := fun i : nat => if (i <? 2)%nat then exits_1 else prints_ok in
  let patient : backoff.Clock := fun _ _ => false in
  let two_rounds : backoff.Clock := fun _ i => (1 <=? i)%nat in
  (exists c', util.Run 3 patient twice_down c = Some (("ok", None), c')
              /\ util.Timeout c' = 180000000000%Z)
  /\ (exists c', util.Run 5 two_rounds (fun _ => exits_1) c
                 = Some (("", snd (util.run exits_1 c)), c')).
Proof.
  intros c twice_down patient two_rounds. split.
  - destruct (Run_retries_until_success_or_stop patient twice_down c 2 3)
      as (_ & Hok & _).
    + lia.
    + intros i Hi. destruct i as [|[|i]]; [| |lia]; by eexists.
    + destruct (Hok "ok" eq_refl) as (c' & HR & HT & _).
      exists c'. split; assumption.
  - destruct (Run_retries_until_success_or_stop two_rounds (fun _ => exits_1)
                c 1 5) as (_ & _ & Hstop).
    + lia.
    + intros i Hi. destruct i as [|i]; [|lia]. by eexists.
    + destruct (Hstop _ _ eq_refl eq_refl) as (c' & HR & _).
      exists c'. exact HR.
Defined.

(** ** The argument vector of [helm upgrade] *)

Lemma fold_left_append_pairs (flag : string) (xs : list string) :
  forall args : list string,
    fold_left (fun args x => args ++ [flag; x]) xs args
    = args ++ flat_map (fun x => [flag; x]) xs.
Proof.
  induction xs as [|x xs IH]; intros args; simpl.
  - by rewrite app_nil_r.
  - by rewrite IH, <- app_assoc.
Qed.

Example UpgradeChart_args_example :
  helm.UpgradeChart_args "jenkins-x/app" "my-app" "staging" (Some "1.2.0")
                         true (Some 600%Z) false true
                         ["a=1"; "b=2"] ["values.yaml"]
  = ["upgrade"; "--namespace"; "staging"; "--install"; "--wait";
     "--timeout"; "600"; "--version"; "1.2.0"; "--set"; "a=1";
     "--set"; "b=2"; "--values"; "values.yaml"; "my-app"; "jenkins-x/app"].
Proof. reflexivity. Qed.

(** C8.  [UpgradeChart] launches helm with, in this order: [upgrade],
    [--namespace ns], [--install] if [install], [--wait] if [wait],
    [--force] if [force], [--timeout n] if the timeout is given,
    [--version v] if the version is given, one [--set] pair per value in
    the order given, one [--values] pair per value file in the order given,
    and last the release name and the chart. *)
Theorem UpgradeChart_argument_order
    (os : exec.Process) (chart releaseName ns : string)
    (version : option string) (install : bool) (timeout : option Z)
    (force wait : bool) (values valueFiles : list string)
    (h : helm.HelmCLI) :
  let args :=
    ["upgrade"; "--namespace"; ns]
    ++ (if install then ["--install"] else [])
    ++ (if wait then ["--wait"] else [])
    ++ (if force then ["--force"] else [])
    ++ match timeout with
       | Some n => ["--timeout"; strconv.Itoa n]
       | None => []
       end
    ++ match version with Some v => ["--version"; v] | None => [] end
    ++ flat_map (fun value => ["--set"; value]) values
    ++ flat_map (fun valueFile => ["--values"; valueFile]) valueFiles
    ++ [releaseName; chart] in
  helm.UpgradeChart_args chart releaseName ns version install timeout force
                         wait values valueFiles = args
  /\ helm.UpgradeChart os chart releaseName ns version install timeout force
                       wait values valueFiles h
     = helm.runHelm os args h
  /\ util.Args (helm.Runner
                  (snd (helm.UpgradeChart os chart releaseName ns version
                          install timeout force wait values valueFiles h)))
     = args.
Proof.
  intros args.
  assert (Hargs : helm.UpgradeChart_args chart releaseName ns version install
                    timeout force wait values valueFiles = args).
  { unfold helm.UpgradeChart_args, args.
    rewrite !fold_left_append_pairs.
    destruct install, wait, force, timeout, version; simpl;
      by rewrite <- ?app_assoc. }
  unfold helm.UpgradeChart. rewrite Hargs.
  split; [reflexivity|]. split; [reflexivity|].
  unfold helm.runHelm, util.RunWithoutRetry.
  destruct (util.run os _) as [r [e|]]; reflexivity.
Qed.

(** ** The parsers that skip two lines *)

Example SearchChartVersions_example :
  fst (helm.SearchChartVersions
         (prints (row ["NAME"; "VERSION"] +:+ row ["---"]
                  +:+ row ["mychart"; "1.2.0"]))
         "mychart" helm2)
  = Returns (["1.2.0"], None).
Proof. by vm_compute. Qed.

(** [Split] cuts at every separator: one piece more than separators. *)
Lemma Split_length s sep :
  length (strings.Split s sep) = S (count_byte sep s).
Proof.
  induction s as [|c s IH]; [reflexivity|].
  simpl. destruct (Ascii.eqb c sep); simpl; [by rewrite IH|].
  destruct (strings.Split s sep) as [|f fs]; [discriminate|].
  simpl in *. lia.
Qed.

Lemma slice_from_2_short {A} (l : list A) :
  length l < 2 -> slice_from 2 l = Panics.
Proof.
  intros Hl. unfold slice_from.
  destruct (Nat.leb_spec 2 (length l)); [lia | reflexivity].
Qed.

(** C5.  [ListRepos], [SearchChartVersions] and [StatusReleases] take
    [lines[2:]] without looking at the length: when the command succeeds
    and its trimmed output has fewer than two lines, that is, no line feed
    (the empty output is one empty line), each of them panics. *)
Theorem two_line_skip_panics
    (os : exec.Process) (h : helm.HelmCLI) (chart output : string) :
  length (strings.Split output strings.nl) < 2 ->
  (fst (helm.runHelmWithOutput os ["repo"; "list"] h) = (output, None) ->
   fst (helm.ListRepos os h) = Panics)
  /\ (fst (helm.runHelmWithOutput os ["search"; chart; "--versions"] h)
      = (output, None) ->
      fst (helm.SearchChartVersions os chart h) = Panics)
  /\ (fst (helm.runHelmWithOutput os ["list"] h) = (output, None) ->
      fst (helm.StatusReleases os h) = Panics)
  /\ (length (strings.Split output strings.nl) < 2
      <-> count_byte strings.nl output = 0)
  /\ strings.Split "" strings.nl = [""].
Proof.
  intros Hshort.
  apply slice_from_2_short in Hshort as Hpanic.
  repeat split.
  - unfold helm.ListRepos.
    destruct (helm.runHelmWithOutput os _ h) as [[out err] h'].
    cbn [fst]. intros [= -> ->]. by rewrite Hpanic.
  - unfold helm.SearchChartVersions.
    destruct (helm.runHelmWithOutput os _ h) as [[out err] h'].
    cbn [fst]. intros [= -> ->]. by rewrite Hpanic.
  - unfold helm.StatusReleases, helm.ListCharts.
    destruct (helm.runHelmWithOutput os _ h) as [[out err] h'].
    cbn [fst]. intros [= -> ->]. by rewrite Hpanic.
  - rewrite Split_length. lia.
  - rewrite Split_length. lia.
Qed.

Lemma two_line_skip_panics_witness :
  let h := helm.NewHelmCLI "helm" 2%Z "" [] in
  fst (helm.ListRepos prints_nothing h) = Panics
  /\ fst (helm.SearchChartVersions prints_nothing "jenkins" h) = Panics
  /\ fst (helm.StatusReleases prints_nothing h) = Panics.
Proof.
  intros h.
  destruct (two_line_skip_panics prints_nothing h "jenkins" "")
    as (H1 & H2 & H3 & _); [simpl; lia|].
  split; [apply H1; reflexivity|].
  split; [apply H2; reflexivity | apply H3; reflexivity].
Defined.

(** ** Finding the chart *)

(** C4.  [FindChart], when the existence check and the globs report no
    error: [<workdir>/Chart.yaml] if that file exists; else the first match
    of [*/Chart.yaml]; else the first match of [*/*/Chart.yaml] that does
    not end in [/preview/Chart.yaml], the matches that do being passed
    over; and when there is no such match, [<workdir>/Chart.yaml] all the
    same, without an error. *)
Theorem FindChart_resolution_order (fs : helm.FileSystem) (h : helm.HelmCLI) :
  let chartFile := helm.Join fs (helm.CWD h) "Chart.yaml" in
  let preview f := strings.HasSuffix f "/preview/Chart.yaml" = true in
  (helm.FileExists fs chartFile = (true, None) ->
   helm.FindChart fs h = (chartFile, None))
  /\ (helm.FileExists fs chartFile = (false, None) ->
      forall file files,
        helm.Glob fs "*/Chart.yaml" = (file :: files, None) ->
        helm.FindChart fs h = (file, None))
  /\ (helm.FileExists fs chartFile = (false, None) ->
      helm.Glob fs "*/Chart.yaml" = ([], None) ->
      forall skipped file files,
        helm.Glob fs "*/*/Chart.yaml" = (skipped ++ file :: files, None) ->
        Forall preview skipped -> ~ preview file ->
        helm.FindChart fs h = (file, None))
  /\ (helm.FileExists fs chartFile = (false, None) ->
      helm.Glob fs "*/Chart.yaml" = ([], None) ->
      forall files,
        helm.Glob fs "*/*/Chart.yaml" = (files, None) ->
        Forall preview files ->
        helm.FindChart fs h = (chartFile, None)).
Proof.
  intros chartFile preview.
  assert (Hloop : forall skipped rest,
             Forall preview skipped ->
             helm.FindChart_loop (skipped ++ rest) = helm.FindChart_loop rest).
  { induction 1 as [|f skipped Hf _ IH]; [reflexivity|].
    simpl. unfold preview in Hf. by rewrite Hf. }
  unfold helm.FindChart. fold chartFile.
  repeat split.
  - by intros ->.
  - by intros -> file files ->.
  - intros -> -> skipped file files -> Hskip Hfile. cbn.
    rewrite Hloop by done. simpl.
    unfold preview in Hfile.
    by destruct (strings.HasSuffix file "/preview/Chart.yaml").
  - intros -> -> files -> Hall. cbn.
    rewrite <- (app_nil_r files), Hloop by done. reflexivity.
Qed.

Lemma FindChart_resolution_order_witness :
  let h := helm.NewHelmCLI "helm" 2%Z "/work" [] in
  helm.FindChart top_chart h = ("/work/Chart.yaml", None)
  /\ helm.FindChart nested_charts h = ("charts/app/Chart.yaml", None)
  /\ helm.FindChart only_preview h = ("/work/Chart.yaml", None).
Proof.
  intros h. split; [|split].
  - apply (proj1 (FindChart_resolution_order top_chart h)). reflexivity.
  - apply (proj1 (proj2 (proj2 (FindChart_resolution_order nested_charts h)))
             eq_refl eq_refl ["charts/preview/Chart.yaml"]
             "charts/app/Chart.yaml" []).
    + reflexivity.
    + by repeat constructor.
    + discriminate.
  - apply (proj2 (proj2 (proj2 (FindChart_resolution_order only_preview h)))
             eq_refl eq_refl ["charts/preview/Chart.yaml"]).
    + reflexivity.
    + by repeat constructor.
Defined.

(** ** Maps built line by line *)

Section last_wins.

Variable entry : string -> option (string * string).

Lemma fold_put_lookup (rest : list string) :
  forall (m : gmap string string) (k v : string),
    fold_left (put entry) rest m !! k = Some v
    <-> last_entry entry rest k v
        \/ (m !! k = Some v
            /\ forall line v', line ∈ rest -> entry line <> Some (k, v')).
Proof.
  induction rest as [|x rest IH]; intros m k v; simpl.
  - split.
    + intros Hm. right. split; [exact Hm|].
      intros line v' Hin. by apply not_elem_of_nil in Hin.
    + intros [(i & line & Hi & _)|[Hm _]]; [|exact Hm].
      by rewrite lookup_nil in Hi.
  - rewrite IH. clear IH. split.
    + intros [(i & line & Hi & He & Hlater)|[Hm Hnone]].
      * left. exists (S i), line. repeat split; try assumption.
        intros j line' v' Hj Hl. destruct j as [|j]; [lia|].
        apply (Hlater j); [lia | exact Hl].
      * unfold put in Hm. destruct (entry x) as [[k' v']|] eqn:Hx.
        -- destruct (decide (k' = k)) as [->|Hne].
           ++ rewrite lookup_insert_eq in Hm. injection Hm as ->.
              left. exists 0, x. repeat split; try assumption.
              intros j line' v'' Hj Hl. destruct j as [|j]; [lia|].
              apply Hnone. eapply list_elem_of_lookup_2. exact Hl.
           ++ rewrite lookup_insert_ne in Hm by done.
              right. split; [exact Hm|].
              intros line v'' Hin. apply elem_of_cons in Hin.
              destruct Hin as [->|Hin]; [congruence | by apply Hnone].
        -- right. split; [exact Hm|].
           intros line v'' Hin. apply elem_of_cons in Hin.
           destruct Hin as [->|Hin]; [congruence | by apply Hnone].
    + intros [(i & line & Hi & He & Hlater)|[Hm Hnone]].
      * destruct i as [|i].
        -- simpl in Hi. injection Hi as ->.
           right. split.
           ++ unfold put. rewrite He. apply lookup_insert_eq.
           ++ intros line' v' Hin.
              apply list_elem_of_lookup_1 in Hin. destruct Hin as [j Hj].
              apply (Hlater (S j)); [lia | exact Hj].
        -- left. exists i, line. repeat split; try assumption.
           intros j line' v' Hj Hl.
           apply (Hlater (S j)); [lia | exact Hl].
      * right. split.
        -- unfold put. destruct (entry x) as [[k' v']|] eqn:Hx; [|exact Hm].
           rewrite lookup_insert_ne; [exact Hm|].
           intros ->. apply (Hnone x v'); [apply elem_of_cons; by left|].
           exact Hx.
        -- intros line v' Hin. apply Hnone. apply elem_of_cons. by right.
Qed.

(** From the empty map: the last entry for each key. *)
Lemma fold_put_empty (rest : list string) (k v : string) :
  fold_left (put entry) rest ∅ !! k = Some v <-> last_entry entry rest k v.
Proof.
  rewrite fold_put_lookup. split; [|by left].
  intros [H|[H _]]; [exact H|]. by rewrite lookup_empty in H.
Qed.

End last_wins.

(** ** [ListRepos] *)

Lemma ListRepos_line_put repos line :
  helm.ListRepos_line repos line = put repo_entry repos line.
Proof.
  unfold helm.ListRepos_line, put, repo_entry.
  rewrite Fields_TrimSpace.
  by destruct (strings.Fields line) as [|? [|? ?]].
Qed.

Lemma fold_left_ext {A B} (f g : A -> B -> A) (l : list B) :
  (forall a b, f a b = g a b) ->
  forall a, fold_left f l a = fold_left g l a.
Proof.
  intros Hfg. induction l as [|b l IH]; intros a; simpl; [reflexivity|].
  by rewrite Hfg, IH.
Qed.

(** C1 fails as stated twice.  When a name comes on two lines with
    different URLs the map holds the later line's URL, so the earlier
    line's first token does not map to that line's second token.  And when
    the output has no second line, no map is returned (C5). *)
Lemma ListRepos_as_stated_fails :
  ~ ListRepos_as_stated (prints repo_list_repeated) helm2
  /\ ~ ListRepos_as_stated prints_nothing helm2.
Proof.
  split; intros H.
  - destruct (H _ eq_refl) as (repos & HR & Hlines).
    vm_compute in HR. injection HR as <-.
    destruct (Hlines ("stable" +:+ String strings.tab "http://a") "stable")
      as [Hurl _].
    { vm_compute. apply list_elem_of_In. left. reflexivity. }
    specialize (Hurl "http://a" [] eq_refl).
    vm_compute in Hurl. discriminate.
  - destruct (H _ eq_refl) as (repos & HR & _).
    vm_compute in HR. discriminate.
Qed.

(** C1, amended.  When [repo list] succeeds and its trimmed output has at
    least two lines, [ListRepos] drops the first two and returns, without
    error, the map that takes a name to a URL exactly when some remaining
    line has that name as its first token and that URL as its second token
    (the empty string when it has no second token), and no later line
    begins with the same name.  On the spec's example the result is
    [repo1 -> http://a, repo2 -> ""]. *)
Theorem ListRepos_last_line_wins :
  (forall (os : exec.Process) (h : helm.HelmCLI)
          (output header separator : string) (rest : list string),
      fst (helm.runHelmWithOutput os ["repo"; "list"] h) = (output, None) ->
      strings.Split output strings.nl = header :: separator :: rest ->
      exists repos : gmap string string,
        fst (helm.ListRepos os h) = Returns (repos, None)
        /\ forall name URL,
             repos !! name = Some URL <-> last_entry repo_entry rest name URL)
  /\ fst (helm.ListRepos (prints repo_list_example) helm2)
     = Returns ({[ "repo1" := "http://a"; "repo2" := "" ]}, None).
Proof.
  split; [|by vm_compute].
  intros os h output header separator rest Hrun Hsplit.
  unfold helm.ListRepos.
  destruct (helm.runHelmWithOutput os _ h) as [[out err] h'].
  cbn [fst] in Hrun. injection Hrun as -> ->.
  rewrite Hsplit. cbn [slice_from length Nat.leb drop fst].
  eexists. split; [reflexivity|].
  intros name URL.
  rewrite (fold_left_ext _ _ rest ListRepos_line_put).
  apply fold_put_empty.
Qed.

Lemma ListRepos_last_line_wins_witness :
  exists repos : gmap string string,
    fst (helm.ListRepos (prints repo_list_repeated) helm2)
    = Returns (repos, None)
    /\ repos !! "stable" = Some "http://b".
Proof.
  destruct (proj1 ListRepos_last_line_wins (prints repo_list_repeated) helm2
              _ _ _ _ eq_refl eq_refl) as (repos & HR & Hrepos).
  exists repos. split; [exact HR|].
  apply Hrepos.
  exists 1, ("stable" +:+ String strings.tab "http://b").
  split; [reflexivity|]. split; [reflexivity|].
  intros j line' v' Hj Hl.
  destruct j as [|[|j]]; [lia | lia | destruct j; discriminate].
Defined.

(** ** [StatusReleases] *)

Lemma StatusReleases_line_put statusMap line :
  helm.StatusReleases_line statusMap line = put status_entry statusMap line.
Proof.
  unfold helm.StatusReleases_line, put, status_entry.
  by destruct (strings.Split line strings.tab) as [|? [|? [|? [|? ?]]]].
Qed.

Lemma status_entry_few_fields l :
  length (strings.Split l strings.tab) <= 3 -> status_entry l = None.
Proof.
  unfold status_entry.
  destruct (strings.Split l strings.tab) as [|? [|? [|? [|? ?]]]];
    simpl; intros; (reflexivity || lia).
Qed.

Lemma status_entry_fields l :
  3 < length (strings.Split l strings.tab) ->
  exists f0 f3,
    strings.Split l strings.tab !! 0 = Some f0
    /\ strings.Split l strings.tab !! 3 = Some f3
    /\ status_entry l = Some (strings.TrimSpace f0, strings.TrimSpace f3).
Proof.
  unfold status_entry.
  destruct (strings.Split l strings.tab) as [|f0 [|? [|? [|f3 ?]]]];
    simpl; intros; try lia.
  by exists f0, f3.
Qed.

(** C2 fails as stated twice.  When a release comes on two lines with
    different statuses the map holds the later line's status.  And when
    the output has no second line, no map is returned (C5). *)
Lemma StatusReleases_as_stated_fails :
  ~ StatusReleases_as_stated (prints release_list_repeated) helm2
  /\ ~ StatusReleases_as_stated prints_nothing helm2.
Proof.
  split; intros H.
  - destruct (H _ eq_refl) as (statusMap & HR & Hlines & _).
    vm_compute in HR. injection HR as <-.
    specialize (Hlines (String.concat (String strings.tab "")
                                      ["rel"; "1"; "y"; "FAILED"])
                       "rel" "FAILED").
    assert (Hmap : ({[ "rel" := "DEPLOYED" ]} : gmap string string)
                     !! "rel" = Some "FAILED").
    { apply Hlines; [|simpl; lia|reflexivity|reflexivity].
      vm_compute. apply list_elem_of_In. left. reflexivity. }
    vm_compute in Hmap. discriminate.
  - destruct (H _ eq_refl) as (statusMap & HR & _).
    vm_compute in HR. discriminate.
Qed.

(** C2, amended.  When [list] succeeds and its trimmed output has at least
    two lines, [StatusReleases] drops the first two, splits every remaining
    line at the tabs and returns, without error, the map that takes a
    release to a status exactly when some remaining line with more than 3
    fields has that release as its trimmed first field and that status as
    its trimmed fourth, and no later line with more than 3 fields has the
    same trimmed first field.  Lines with 3 fields or fewer give no entry.
    The row [rel x y DEPLOYED] gives [rel -> DEPLOYED]. *)
Theorem StatusReleases_last_line_wins :
  (forall (os : exec.Process) (h : helm.HelmCLI)
          (output header separator : string) (rest : list string),
      fst (helm.ListCharts os h) = (output, None) ->
      strings.Split output strings.nl = header :: separator :: rest ->
      exists statusMap : gmap string string,
        fst (helm.StatusReleases os h) = Returns (statusMap, None)
        /\ forall release status,
             statusMap !! release = Some status
             <-> last_entry status_entry rest release status)
  /\ (forall l,
         (length (strings.Split l strings.tab) <= 3 -> status_entry l = None)
         /\ (3 < length (strings.Split l strings.tab) ->
             exists f0 f3,
               strings.Split l strings.tab !! 0 = Some f0
               /\ strings.Split l strings.tab !! 3 = Some f3
               /\ status_entry l
                  = Some (strings.TrimSpace f0, strings.TrimSpace f3)))
  /\ fst (helm.StatusReleases (prints release_list_example) helm2)
     = Returns ({[ "rel" := "DEPLOYED" ]}, None).
Proof.
  split; [|split; [|by vm_compute]].
  - intros os h output header separator rest Hrun Hsplit.
    unfold helm.StatusReleases.
    destruct (helm.ListCharts os h) as [[out err] h'].
    cbn [fst] in Hrun. injection Hrun as -> ->.
    rewrite Hsplit. cbn [slice_from length Nat.leb drop fst].
    eexists. split; [reflexivity|].
    intros release status.
    rewrite (fold_left_ext _ _ rest StatusReleases_line_put).
    apply fold_put_empty.
  - intros l. split;
      [apply status_entry_few_fields | apply status_entry_fields].
Qed.

Lemma StatusReleases_last_line_wins_witness :
  exists statusMap : gmap string string,
    fst (helm.StatusReleases (prints release_list_repeated) helm2)
    = Returns (statusMap, None)
    /\ statusMap !! "rel" = Some "DEPLOYED".
Proof.
  destruct (proj1 StatusReleases_last_line_wins (prints release_list_repeated)
              helm2 _ _ _ _ eq_refl eq_refl) as (statusMap & HR & Hmap).
  exists statusMap. split; [exact HR|].
  apply Hmap.
  exists 1, (String.concat (String strings.tab "") ["rel"; "2"; "y"; "DEPLOYED"]).
  split; [reflexivity|]. split; [reflexivity|].
  intros j line' v' Hj Hl.
  destruct j as [|[|j]]; [lia | lia | destruct j; discriminate].
Defined.

(** ** [IsRepoMissing] *)

Section IsRepoMissing_facts.

Variable Parse : url.Parser.
Variable range : gmap string string -> list (string * string).

(** [range] visits every entry of the map once, in some order. *)
Hypothesis range_visits_all : forall m, range m ≡ₚ map_to_list m.

Lemma elem_of_range m name repoURL :
  (name, repoURL) ∈ range m <-> m !! name = Some repoURL.
Proof. by rewrite range_visits_all, elem_of_map_to_list. Qed.

Lemma nonempty_length (s : string) :
  (0 <? String.length s)%nat = true <-> s <> "".
Proof. destruct s; simpl; split; try done. Qed.

(** The three ways the loop ends. *)
Lemma IsRepoMissing_loop_cases (searched : url.URL)
    (entries : list (string * string)) :
  let result := helm.IsRepoMissing_loop Parse searched entries in
  (result = (false, None)
   /\ exists name repoURL u,
        (name, repoURL) ∈ entries /\ repoURL <> ""
        /\ Parse repoURL = inl u /\ url.Host u = url.Host searched)
  \/ (exists name repoURL err,
        (name, repoURL) ∈ entries /\ repoURL <> ""
        /\ Parse repoURL = inr err
        /\ result
           = (true, Some (errors.Wrap err "failed to parse the repo URL")))
  \/ (result = (true, None)
      /\ forall name repoURL,
           (name, repoURL) ∈ entries -> repoURL <> "" ->
           exists u, Parse repoURL = inl u
                     /\ url.Host u <> url.Host searched).
Proof.
  induction entries as [|[name repoURL] entries IH]; cbn zeta.
  - right. right. split; [reflexivity|].
    intros ? ? Hin. by apply not_elem_of_nil in Hin.
  - cbn [helm.IsRepoMissing_loop].
    destruct (0 <? String.length repoURL)%nat eqn:Hlen.
    + apply nonempty_length in Hlen.
      destruct (Parse repoURL) as [u|err] eqn:HP.
      * destruct (String.eqb_spec (url.Host u) (url.Host searched))
          as [Hhost|Hhost].
        -- left. split; [reflexivity|].
           exists name, repoURL, u. repeat split; try assumption.
           apply elem_of_cons. by left.
        -- destruct IH as [(HR & n & r & u' & Hin & H)
                          |[(n & r & err & Hin & H)|(HR & Hall)]].
           ++ left. split; [exact HR|]. exists n, r, u'.
              split; [apply elem_of_cons; by right | exact H].
           ++ right. left. exists n, r, err.
              split; [apply elem_of_cons; by right | exact H].
           ++ right. right. split; [exact HR|].
              intros n r Hin Hne. apply elem_of_cons in Hin.
              destruct Hin as [[= -> ->]|Hin]; [|by apply (Hall n)].
              by exists u.
      * right. left. exists name, repoURL, err.
        repeat split; try assumption. apply elem_of_cons. by left.
    + assert (Hempty : repoURL = "").
      { destruct repoURL; [reflexivity | discriminate]. }
      destruct IH as [(HR & n & r & u' & Hin & H)
                     |[(n & r & err & Hin & H)|(HR & Hall)]].
      * left. split; [exact HR|]. exists n, r, u'.
        split; [apply elem_of_cons; by right | exact H].
      * right. left. exists n, r, err.
        split; [apply elem_of_cons; by right | exact H].
      * right. right. split; [exact HR|].
        intros n r Hin Hne. apply elem_of_cons in Hin.
        destruct Hin as [[= -> ->]|Hin]; [congruence | by apply (Hall n)].
Qed.

End IsRepoMissing_facts.

(** C3 fails as stated twice.  A repository listed without a URL is passed
    over, although its empty URL parses and has the empty host of a
    candidate without a scheme: the answer is [true].  And a stored URL
    that does not parse is no error when a repository with the candidate's
    host is visited before it: the answer is [false], without error. *)
Lemma IsRepoMissing_as_stated_fails :
  ~ IsRepoMissing_as_stated Parse_examples range_in_key_order
      (prints repo_list_no_URL) helm2 "example.com/charts"
  /\ ~ IsRepoMissing_as_stated Parse_examples range_in_key_order
         (prints repo_list_malformed) helm2 "http://example.com/x".
Proof.
  split; intros H.
  - destruct (H {[ "local" := "" ]}) as [Hhost _]; [by vm_compute|].
    assert (Hparse : forall name repoURL : string,
               ({[ "local" := "" ]} : gmap string string) !! name
               = Some repoURL ->
               ~ exists err, Parse_examples repoURL = inr err).
    { intros name repoURL Hl [err Herr].
      apply lookup_singleton_Some in Hl. destruct Hl as [_ <-].
      discriminate. }
    destruct (Hhost (url.mkURL "" "" "example.com/charts") eq_refl Hparse)
      as (missing & HR & Hiff).
    vm_compute in HR. injection HR as <-.
    assert (Hfalse : true = false); [|discriminate].
    apply Hiff. exists "local", "", (url.mkURL "" "" "").
    by vm_compute.
  - destruct (H {[ "stable" := "http://example.com/y"; "broken" := ":bad" ]})
      as [_ Herror]; [by vm_compute|].
    assert (Hbad : exists name repoURL : string,
               ({[ "stable" := "http://example.com/y"; "broken" := ":bad" ]}
                : gmap string string) !! name = Some repoURL
               /\ exists err, Parse_examples repoURL = inr err).
    { exists "broken", ":bad". split; [by vm_compute|].
      by exists (errors.New "missing protocol scheme"). }
    destruct (Herror (or_intror Hbad)) as (missing & err & HR).
    vm_compute in HR. discriminate.
Qed.

(** C3, amended.  Once the repositories are listed, and whatever the order
    in which the map is visited: a candidate that does not parse is an
    error.  Otherwise the repositories listed without a URL are passed
    over, and among the others: if every URL parses, the answer is [false]
    exactly when one of them has the candidate's host, and [true] without
    error else; if some URL does not parse, the answer is never "missing":
    it is the parse error of a stored URL, or [false] when a repository
    with the candidate's host was visited first.  With the candidate
    [http://example.com/x] the answer is [false] against
    [a -> http://example.com/y] and [true] against [a -> http://other.com]. *)
Theorem IsRepoMissing_by_host :
  (forall (Parse : url.Parser)
          (range : gmap string string -> list (string * string))
          (os : exec.Process) (h : helm.HelmCLI) (URL : string)
          (repos : gmap string string),
      (forall m, range m ≡ₚ map_to_list m) ->
      fst (helm.ListRepos os h) = Returns (repos, None) ->
      let result := fst (helm.IsRepoMissing Parse range os URL h) in
      (forall err,
          Parse URL = inr err ->
          result
          = Returns (true,
                     Some (errors.Wrap err "provided repo URL is invalid")))
      /\ (forall searched,
             Parse URL = inl searched ->
             let same_host :=
               exists name repoURL u,
                 repos !! name = Some repoURL /\ repoURL <> ""
                 /\ Parse repoURL = inl u
                 /\ url.Host u = url.Host searched in
             let malformed :=
               exists name repoURL err,
                 repos !! name = Some repoURL /\ repoURL <> ""
                 /\ Parse repoURL = inr err
                 /\ result
                    = Returns (true,
                               Some (errors.Wrap
                                       err "failed to parse the repo URL")) in
             ((forall name repoURL,
                  repos !! name = Some repoURL -> repoURL <> "" ->
                  exists u, Parse repoURL = inl u) ->
              exists missing,
                result = Returns (missing, None)
                /\ (missing = false <-> same_host))
             /\ ((exists name repoURL err,
                     repos !! name = Some repoURL /\ repoURL <> ""
                     /\ Parse repoURL = inr err) ->
                 (result = Returns (false, None) /\ same_host)
                 \/ malformed)))
  /\ fst (helm.IsRepoMissing Parse_examples range_in_key_order
            (prints repo_list_same_host) "http://example.com/x" helm2)
     = Returns (false, None)
  /\ fst (helm.IsRepoMissing Parse_examples range_in_key_order
            (prints repo_list_other_host) "http://example.com/x" helm2)
     = Returns (true, None).
Proof.
  split; [|split; by vm_compute].
  intros Parse range os h URL repos Hrange Hlist result.
  unfold result, helm.IsRepoMissing.
  destruct (helm.ListRepos os h) as [[[repos' err']|] h'];
    cbn [fst] in Hlist; [|discriminate].
  injection Hlist as -> ->.
  split.
  - by intros err ->.
  - intros searched ->. cbn zeta. cbn [fst].
    pose proof (IsRepoMissing_loop_cases Parse searched (range repos)) as Hc.
    cbn zeta in Hc.
    destruct Hc as [(HR & n & r & u & Hin & Hne & HP & Hhost)
                   |[(n & r & err & Hin & Hne & HP & HR)|(HR & Hall)]];
      rewrite HR; apply (elem_of_range range Hrange) in Hin || idtac.
    + split.
      * intros _. exists false. split; [reflexivity|].
        split; [|reflexivity]. intros _. by exists n, r, u.
      * intros _. left. split; [reflexivity|]. by exists n, r, u.
    + split.
      * intros Hparse. destruct (Hparse n r Hin Hne) as [u Hu]. congruence.
      * intros _. right. by exists n, r, err.
    + split.
      * intros _. exists true. split; [reflexivity|].
        split; [discriminate|].
        intros (n & r & u & Hl & Hne & HP & Hhost).
        apply (elem_of_range range Hrange) in Hl.
        destruct (Hall n r Hl Hne) as (u' & HP' & Hhost'). congruence.
      * intros (n & r & err & Hl & Hne & HP).
        apply (elem_of_range range Hrange) in Hl.
        destruct (Hall n r Hl Hne) as (u' & HP' & _). congruence.
Qed.

Lemma IsRepoMissing_by_host_witness :
  exists missing,
    fst (helm.IsRepoMissing Parse_examples range_in_key_order
           (prints repo_list_no_URL) "example.com/charts" helm2)
    = Returns (missing, None)
    /\ missing = true.
Proof.
  assert (Hlist : fst (helm.ListRepos (prints repo_list_no_URL) helm2)
                  = Returns ({[ "local" := "" ]}, None)) by (by vm_compute).
  pose proof (proj1 IsRepoMissing_by_host Parse_examples range_in_key_order
                (prints repo_list_no_URL) helm2 "example.com/charts"
                {[ "local" := "" ]} (fun m => reflexivity _) Hlist) as H.
  cbv zeta in H. destruct H as [_ Hparsed].
  specialize (Hparsed (url.mkURL "" "" "example.com/charts") eq_refl).
  destruct Hparsed as [Hall _].
  assert (Hparse : forall name repoURL : string,
             ({[ "local" := "" ]} : gmap string string) !! name
             = Some repoURL ->
             repoURL <> "" -> exists u, Parse_examples repoURL = inl u).
  { intros name repoURL Hl Hne.
    apply lookup_singleton_Some in Hl. destruct Hl as [_ <-]. congruence. }
  destruct (Hall Hparse) as (missing & HR & Hiff).
  exists missing. split; [exact HR|].
  destruct missing; [reflexivity|].
  destruct (proj1 Hiff eq_refl) as (name & repoURL & u & Hl & Hne & _).
  apply lookup_singleton_Some in Hl. destruct Hl as [_ <-]. congruence.
Defined.

(** * Further properties *)

(** ** Fields, pieces and trimmed text *)

Lemma emit_nonempty cur f : f ∈ strings.emit cur -> f <> "".
Proof.
  unfold strings.emit. destruct (String.eqb_spec cur "") as [->|Hne].
  - intros H. by apply not_elem_of_nil in H.
  - intros H. apply list_elem_of_singleton in H. by subst.
Qed.

Lemma append_byte_nonempty cur c : cur +:+ String c "" <> "".
Proof. by destruct cur. Qed.

(** A field is never empty. *)
Lemma fieldsFrom_nonempty s : forall k cur f,
  f ∈ strings.fieldsFrom s k cur -> f <> "".
Proof.
  induction s as [|c s IH]; intros k cur f; cbn [strings.fieldsFrom].
  - apply emit_nonempty.
  - destruct k as [|k]; [|apply IH].
    destruct (strings.spaceWidth (String c s)) as [|w]; [apply IH|].
    intros H. apply elem_of_app in H. destruct H as [H|H].
    + by apply emit_nonempty in H.
    + by apply IH in H.
Qed.

Lemma Fields_nonempty s f : f ∈ strings.Fields s -> f <> "".
Proof. apply fieldsFrom_nonempty. Qed.

(** The pieces of [Split] do not hold the separator, and joined with it
    they give the string back. *)
Lemma Split_pieces s sep piece :
  piece ∈ strings.Split s sep -> count_byte sep piece = 0.
Proof.
  revert piece. induction s as [|c s IH]; intros piece; simpl.
  - intros H. apply list_elem_of_singleton in H. by subst.
  - destruct (Ascii.eqb c sep) eqn:Hc.
    + intros H. apply elem_of_cons in H. destruct H as [->|H]; [done|].
      by apply IH.
    + destruct (strings.Split s sep) as [|f fs] eqn:HS;
        intros H; apply elem_of_cons in H; destruct H as [->|H].
      * simpl. by rewrite Hc.
      * by apply not_elem_of_nil in H.
      * simpl. rewrite Hc. apply IH. apply elem_of_cons. by left.
      * apply IH. apply elem_of_cons. by right.
Qed.

Lemma Join_Split s sep :
  strings.Join (strings.Split s sep) (String sep "") = s.
Proof.
  unfold strings.Join. induction s as [|c s IH]; [reflexivity|].
  simpl. destruct (Ascii.eqb_spec c sep) as [->|Hne].
  - destruct (strings.Split s sep) as [|f fs] eqn:HS.
    + pose proof (Split_length s sep) as Hl. rewrite HS in Hl. discriminate.
    + simpl. simpl in IH. by rewrite IH.
  - destruct (strings.Split s sep) as [|f fs] eqn:HS.
    + pose proof (Split_length s sep) as Hl. rewrite HS in Hl. discriminate.
    + rewrite <- IH. by destruct fs.
Qed.

Lemma keepLen_le s : forall k, strings.keepLen s k <= String.length s.
Proof.
  induction s as [|c s IH]; intros k; cbn [strings.keepLen String.length];
    [lia|].
  destruct k as [|k].
  - destruct (strings.spaceWidth (String c s)) as [|w].
    + specialize (IH 0). lia.
    + specialize (IH w). destruct (strings.keepLen s w); lia.
  - specialize (IH k). destruct (strings.keepLen s k); lia.
Qed.

Lemma keepLen_cut s : forall k,
  strings.keepLen (substring 0 (strings.keepLen s k) s) k
  = strings.keepLen s k.
Proof.
  induction s as [|c s IH]; intros k; [by destruct k|].
  destruct k as [|k]; cbn [strings.keepLen].
  - destruct (strings.spaceWidth (String c s)) as [|w] eqn:Hw.
    + cbn [substring strings.keepLen].
      by rewrite (spaceWidth_cut_0 _ _ _ Hw), IH.
    + destruct (strings.keepLen s w) as [|r] eqn:Hs; [reflexivity|].
      cbn [substring strings.keepLen].
      rewrite (spaceWidth_cut_S _ _ (S r) _ Hw)
        by (by apply keepLen_covers in Hs).
      rewrite <- Hs at 1. by rewrite IH, Hs.
  - destruct (strings.keepLen s k) as [|r] eqn:Hs; [reflexivity|].
    cbn [substring strings.keepLen].
    rewrite <- Hs at 1. by rewrite IH, Hs.
Qed.

Lemma substring_0_length s : forall n,
  n <= String.length s -> String.length (substring 0 n s) = n.
Proof.
  induction s as [|c s IH]; intros [|n] Hn; simpl in *; try lia.
  rewrite IH; lia.
Qed.

Lemma substring_0_all s : substring 0 (String.length s) s = s.
Proof. induction s as [|c s IH]; simpl; [reflexivity | by rewrite IH]. Qed.

Lemma trimLeft_no_space s : forall k,
  strings.spaceWidth (strings.trimLeft s k) = 0.
Proof.
  induction s as [|c s IH]; intros k; [by destruct k|].
  destruct k as [|k]; cbn [strings.trimLeft]; [|apply IH].
  destruct (strings.spaceWidth (String c s)) eqn:Hw; [exact Hw | apply IH].
Qed.

Lemma trimLeft_fixed s :
  strings.spaceWidth s = 0 -> strings.trimLeft s 0 = s.
Proof. destruct s as [|c s]; [reflexivity|]. cbn [strings.trimLeft]. by intros ->. Qed.

(** Trimmed text has no white space left to trim. *)
Lemma TrimSpace_idempotent s :
  strings.TrimSpace (strings.TrimSpace s) = strings.TrimSpace s.
Proof.
  unfold strings.TrimSpace.
  set (t := strings.trimLeft s 0).
  assert (Ht : strings.spaceWidth t = 0) by apply trimLeft_no_space.
  set (u := substring 0 (strings.keepLen t 0) t).
  assert (Hu : strings.spaceWidth u = 0).
  { unfold u. destruct t as [|c t']; [by destruct (strings.keepLen "" 0)|].
    destruct (strings.keepLen (String c t') 0) as [|n]; [reflexivity|].
    cbn [substring]. by apply spaceWidth_cut_0. }
  rewrite (trimLeft_fixed u Hu).
  unfold u at 1. rewrite keepLen_cut. fold u.
  rewrite <- (substring_0_length t (strings.keepLen t 0)) by apply keepLen_le.
  apply substring_0_all.
Qed.

(** ** What a Command remembers *)

Lemma Error_last c : util.Error c = last (util.Errors c).
Proof.
  unfold util.Error, util.len. by destruct (util.Errors c).
Qed.

Lemma last_app_cases {A} (l1 l2 : list A) :
  last (l1 ++ l2) = match last l2 with Some x => Some x | None => last l1 end.
Proof.
  destruct l2 as [|x l2 _] using rev_ind.
  - by rewrite app_nil_r.
  - by rewrite app_assoc, !last_snoc.
Qed.

(** X1.  The error list only grows: after any runs it is the list before
    followed by the failures, in order.  [Error] gives the latest failure,
    also when successful runs came after it, and what it gave before when
    no attempt has failed since; [DidError], once true, stays true. *)
Theorem Errors_only_grow (c0 c : util.Command) (log : list (option error)) :
  runs c0 log c ->
  util.Errors c = util.Errors c0 ++ failures log
  /\ util.Error c = match last (failures log) with
                    | Some e => Some e
                    | None => util.Error c0
                    end
  /\ (util.DidError c0 = true -> util.DidError c = true).
Proof.
  intros Hruns. destruct (runs_bookkeeping _ _ _ Hruns) as [HE _].
  split; [exact HE|]. split.
  - by rewrite !Error_last, HE, last_app_cases.
  - rewrite !DidError_iff, HE. intros Hne Happ.
    apply app_eq_nil in Happ. by destruct Happ.
Qed.

Lemma Errors_only_grow_witness :
  let c0 := util.new "helm" ["list"] "" in
  let c1 := snd (util.RunWithoutRetry exits_1 c0) in
  let c2 := snd (util.RunWithoutRetry prints_ok c1) in
  util.Error c2 = snd (util.run exits_1 c0) /\ util.DidError c2 = true.
Proof.
  intros c0 c1 c2.
  pose proof (runs_RunWithoutRetry c0 _ _ exits_1 (runs_nil c0)) as H1.
  pose proof (runs_RunWithoutRetry c1 _ _ prints_ok (runs_nil c1)) as H2.
  destruct (Errors_only_grow c0 c1 _ H1) as (_ & _ & _).
  destruct (Errors_only_grow c1 c2 _ H2) as (_ & HErr & HDid).
  split; [exact HErr | apply HDid; reflexivity].
Defined.

(** ** The retry loop, round by round *)

Section Run_rounds.

Variable clock : backoff.Clock.
Variable oss : nat -> exec.Process.
Variable b : backoff.ExponentialBackOff.

(** The log of a loop that ended: failures, then one success unless the
    loop ended on a failure. *)
Lemma Retry_log_shape fuel : forall n s res s',
  backoff.Retry fuel clock (util.f oss) b n s = Some (res, s') ->
  exists errs,
    Retry_log fuel clock (util.f oss) b n s
    = (Some <$> errs) ++ match res with None => [None] | Some _ => [] end
    /\ (forall e, res = Some e -> last errs = Some e).
Proof.
  induction fuel as [|fuel IH]; intros n [[r e] c] res s' H; [discriminate|].
  cbn [backoff.Retry Retry_log util.f] in H |- *.
  destruct (util.run (oss n) c) as [r1 [err|]].
  - destruct (clock b n).
    + injection H as <- <-. exists [err]. by split; [|intros ? [= <-]].
    + apply IH in H. destruct H as (errs & -> & Hlast).
      exists (err :: errs). split; [reflexivity|].
      intros e0 He. specialize (Hlast e0 He).
      destruct errs; [discriminate | exact Hlast].
  - injection H as <- <-. exists []. by split.
Qed.

(** The loop gives up only when told to: it is still running after [fuel]
    rounds exactly when every attempt so far failed and the clock never
    said stop. *)
Lemma Retry_still_running c fuel : forall n r e c1,
  same_invocation c c1 ->
  backoff.Retry fuel clock (util.f oss) b n (r, e, c1) = None
  <-> forall i, n <= i < n + fuel ->
        is_Some (snd (util.run (oss i) c)) /\ clock b i = false.
Proof.
  induction fuel as [|fuel IH]; intros n r e c1 Hsame.
  - split; [intros _ i Hi; lia | reflexivity].
  - cbn [backoff.Retry util.f].
    rewrite <- (run_same_invocation (oss n) c c1 Hsame).
    destruct (util.run (oss n) c) as [r1 [err|]] eqn:Hrun.
    + destruct (clock b n) eqn:Hstop.
      * split; [discriminate|]. intros H.
        destruct (H n ltac:(lia)) as [_ Hgo]. congruence.
      * rewrite IH
          by (eapply same_invocation_trans;
              [exact Hsame | apply same_invocation_record]).
        split; intros H i Hi.
        -- destruct (decide (i = n)) as [->|Hne].
           ++ rewrite Hrun. by split.
           ++ apply H. lia.
        -- apply H. lia.
    + split; [discriminate|]. intros H.
      destruct (H n ltac:(lia)) as [[x Hx] _].
      rewrite Hrun in Hx. discriminate.
Qed.

End Run_rounds.

Lemma failures_Some errs : failures (Some <$> errs) = errs.
Proof.
  unfold failures. induction errs as [|e errs IH]; [reflexivity|].
  cbn. by rewrite IH.
Qed.

(** X2.  [Run] stops at the first success.  When it returns, the attempts
    it made are failures followed by one success, or failures only when it
    returns an error; the failures are exactly what it appended to
    [Errors].  The error it returns is the last failure, it comes with the
    empty text (not with the output of the failed attempt), and [Error]
    reports the same error afterwards. *)
Theorem Run_stops_at_first_success
    (fuel : nat) (clock : backoff.Clock) (oss : nat -> exec.Process)
    (c c' : util.Command) (text : string) (err : option error) :
  util.Run fuel clock oss c = Some ((text, err), c') ->
  exists errs,
    Run_log fuel clock oss c
    = (Some <$> errs) ++ match err with None => [None] | Some _ => [] end
    /\ util.Errors c' = util.Errors c ++ errs
    /\ (forall e, err = Some e ->
          last errs = Some e /\ text = "" /\ util.Error c' = Some e).
Proof.
  intros HRun.
  pose proof (Run_effect _ _ _ _ _ _ HRun) as (HE & _ & _ & _).
  rewrite Run_unfold in HRun. unfold Run_log in *.
  destruct (backoff.Retry _ _ _ _ _ _) as [[res [[r e'] c1]]|] eqn:HR;
    [|discriminate].
  apply Retry_log_shape in HR. destruct HR as (errs & Hlog & Hlast).
  assert (res = err /\ c1 = c' /\ (is_Some err -> text = ""))
    as (-> & -> & Htext).
  { destruct res; injection HRun as <- <- <-; repeat split; try done;
      by intros [? ?]. }
  exists errs. rewrite Hlog in *. split; [reflexivity|].
  assert (HE' : util.Errors c' = util.Errors c ++ errs).
  { rewrite HE, failures_app, failures_Some.
    destruct err; cbn; by rewrite app_nil_r. }
  split; [exact HE'|].
  intros e ->. specialize (Hlast e eq_refl).
  split; [exact Hlast|]. split; [by apply Htext|].
  rewrite Error_last, HE', last_app_cases. by rewrite Hlast.
Qed.

Lemma Run_stops_at_first_success_witness :
  exists c' errs,
    util.Run 5 (fun _ i => (1 <=? i)%nat) (fun _ => exits_1)
             (util.new "helm" ["version"] "")
    = Some (("", last errs), c')
    /\ length errs = 2.
Proof.
  set (c := util.new "helm" ["version"] "").
  set (clock := (fun _ i => (1 <=? i)%nat) : backoff.Clock).
  assert (HRun : exists c',
             util.Run 5 clock (fun _ => exits_1) c
             = Some (("", snd (util.run exits_1 c)), c')).
  { eexists. reflexivity. }
  destruct HRun as (c' & HRun).
  destruct (Run_stops_at_first_success _ _ _ _ _ _ _ HRun)
    as (errs & Hlog & _ & Herr).
  exists c', errs.
  destruct (Herr _ eq_refl) as (-> & _). split; [exact HRun|].
  apply (f_equal length) in Hlog.
  rewrite app_nil_r, length_fmap in Hlog. by rewrite <- Hlog.
Defined.

(** X3.  [Run] gives up only when the policy tells it to: it is still
    retrying after [fuel] attempts exactly when each of them failed and the
    policy, after each, did not say stop. *)
Theorem Run_keeps_retrying
    (fuel : nat) (clock : backoff.Clock) (oss : nat -> exec.Process)
    (c : util.Command) :
  util.Run fuel clock oss c = None
  <-> forall i, i < fuel ->
        is_Some (snd (util.run (oss i) c))
        /\ clock (Run_policy c) i = false.
Proof.
  rewrite Run_unfold.
  pose proof (Retry_still_running clock oss (Run_policy c) c fuel 0 ""
                None (Run_setup c) (same_invocation_setup c)) as HR.
  destruct (backoff.Retry _ _ _ _ _ _) as [[[e|] [[r e'] c1]]|].
  - split; [discriminate|]. intros H.
    assert (Hnone : Some (Some e, (r, e', c1)) = None); [|discriminate].
    apply HR. intros i Hi. apply H. lia.
  - split; [discriminate|]. intros H.
    assert (Hnone : Some (@None error, (r, e', c1)) = None); [|discriminate].
    apply HR. intros i Hi. apply H. lia.
  - split; [|reflexivity]. intros _ i Hi. apply (proj1 HR eq_refl). lia.
Qed.

(** X4.  A [Run] whose first attempt succeeds, or fails with the policy
    saying stop at once, makes that one attempt: it leaves the Command as
    [RunWithoutRetry] leaves the set-up Command, and returns the same
    error; the text is the same on success and empty on failure. *)
Theorem Run_single_attempt
    (fuel : nat) (clock : backoff.Clock) (oss : nat -> exec.Process)
    (c : util.Command) (text : string) (err : option error) :
  util.run (oss 0) c = (text, err) ->
  (is_Some err -> clock (Run_policy c) 0 = true) ->
  util.RunWithoutRetry (oss 0) (Run_setup c)
  = ((text, err), util.record err (Run_setup c))
  /\ util.Run (S fuel) clock oss c
     = Some ((match err with Some _ => "" | None => text end, err),
             util.record err (Run_setup c))
  /\ Run_log (S fuel) clock oss c = [err].
Proof.
  intros Hrun Hstop.
  assert (Hrun' : util.run (oss 0) (Run_setup c) = (text, err))
    by (by rewrite <- (run_same_invocation _ _ _ (same_invocation_setup c))).
  split; [|split].
  - unfold util.RunWithoutRetry. by rewrite Hrun'.
  - rewrite Run_unfold.
    rewrite (Retry_last clock oss (Run_policy c) c fuel 0 "" None
               (Run_setup c) text err (same_invocation_setup c) Hrun Hstop).
    by destruct err.
  - unfold Run_log. cbn [Retry_log util.f]. rewrite Hrun'.
    destruct err as [e|]; [|reflexivity].
    by rewrite Hstop.
Qed.

Lemma Run_single_attempt_witness :
  util.Run 1 (fun _ _ => false) (fun _ => prints_ok)
           (util.new "helm" ["version"] "")
  = Some (("ok", None),
          util.record None (Run_setup (util.new "helm" ["version"] ""))).
Proof.
  apply (Run_single_attempt 0 (fun _ _ => false) (fun _ => prints_ok)
           (util.new "helm" ["version"] "") "ok" None eq_refl).
  intros [? ?]. discriminate.
Defined.

(** ** One execution *)

(** Unless the Command is quiet, [run] launches the named program with the
    arguments in the directory, once, trims what it printed, and wraps its
    error. *)
Lemma run_launches os c :
  util.IsQuiet c = false ->
  util.run os c
  = (strings.TrimSpace (fst (os (util.Name c) (util.Args c) (util.Dir c))),
     (fun e => errors.Wrap e
                 (util.failed_to_run c
                    (strings.TrimSpace
                       (fst (os (util.Name c) (util.Args c) (util.Dir c))))))
       <$> snd (os (util.Name c) (util.Args c) (util.Dir c))).
Proof.
  intros Hq. unfold util.run. rewrite Hq.
  destruct (String.eqb_spec (util.Dir c) "") as [Hd|Hd];
    unfold exec.CombinedOutput; cbn; rewrite <- ?Hd;
    by destruct (os (util.Name c) (util.Args c) _) as [out [e|]].
Qed.

(** A quiet Command fails on its own, whatever the program would do. *)
Lemma run_quiet_fails os c :
  util.IsQuiet c = true ->
  fst (util.run os c) = ""
  /\ is_Some (snd (util.run os c))
  /\ forall os', util.run os' c = util.run os c.
Proof.
  intros Hq. unfold util.run. rewrite Hq.
  by destruct (String.eqb (util.Dir c) "").
Qed.

(** X5.  The text [run] returns is trimmed: trimming it again changes
    nothing, be the run a success or a failure, quiet or not. *)
Theorem run_text_is_trimmed (os : exec.Process) (c : util.Command) :
  strings.TrimSpace (fst (util.run os c)) = fst (util.run os c)
  /\ strings.TrimSpace (fst (fst (util.RunWithoutRetry os c)))
     = fst (fst (util.RunWithoutRetry os c)).
Proof.
  assert (H : strings.TrimSpace (fst (util.run os c)) = fst (util.run os c)).
  { unfold util.run.
    destruct (exec.CombinedOutput os _) as [data [err|]]; cbn [fst];
      apply TrimSpace_idempotent. }
  split; [exact H|].
  unfold util.RunWithoutRetry. by destruct (util.run os c).
Qed.

(** ** PATH *)

Lemma append_assoc (s t u : string) : (s +:+ t) +:+ u = s +:+ (t +:+ u).
Proof.
  induction s as [|c s IH]; [reflexivity|].
  change (String c ((s +:+ t) +:+ u) = String c (s +:+ (t +:+ u))).
  by rewrite IH.
Qed.

Lemma fold_left_append_sep (sep : string) (paths : list string) :
  forall answer : string,
    fold_left (fun answer p => answer +:+ sep +:+ p) paths answer
    = String.concat sep (answer :: paths).
Proof.
  induction paths as [|p paths IH]; intros answer; [reflexivity|].
  cbn [fold_left]. rewrite IH.
  cbn [String.concat]. destruct paths; by rewrite ?append_assoc.
Qed.

Lemma prefix_append (s t : string) : String.prefix s (s +:+ t) = true.
Proof.
  induction s as [|c s IH]; [by destruct t|].
  simpl. by destruct (ascii_dec c c).
Qed.

(** X6.  [PathWithBinary] keeps the PATH it read as the beginning of its
    answer and appends, each after a separator: the binary directory, even
    when that is empty; the maven directory unless it is empty; and the
    caller's paths in order. *)
Theorem PathWithBinary_appends
    (sep : ascii) (path binDir mvnBinDir : string) (paths : list string) :
  util.PathWithBinary sep path binDir mvnBinDir paths
  = strings.Join
      (path :: binDir
         :: (if String.eqb mvnBinDir "" then [] else [mvnBinDir]) ++ paths)
      (String sep "")
  /\ String.prefix path (util.PathWithBinary sep path binDir mvnBinDir paths)
     = true.
Proof.
  assert (H : util.PathWithBinary sep path binDir mvnBinDir paths
              = strings.Join
                  (path :: binDir
                     :: (if String.eqb mvnBinDir "" then [] else [mvnBinDir])
                        ++ paths)
                  (String sep "")).
  { unfold util.PathWithBinary, strings.Join.
    rewrite fold_left_append_sep.
    destruct (String.eqb mvnBinDir ""); cbn [negb app String.concat];
      destruct paths; by rewrite ?append_assoc. }
  split; [exact H|].
  rewrite H. unfold strings.Join. cbn [String.concat].
  apply prefix_append.
Qed.

(** ** The client and its runner *)

Lemma fold_left_snoc {A} (l : list A) : forall a : list A,
  fold_left (fun a z => a ++ [z]) l a = a ++ l.
Proof.
  induction l as [|z l IH]; intros a; simpl; [by rewrite app_nil_r|].
  by rewrite IH, <- app_assoc.
Qed.

Lemma fold_left_split_pieces (args : list string) : forall a : list string,
  fold_left (fun a x => fold_left (fun a z => a ++ [z])
                                  (strings.Split x " "%char) a) args a
  = a ++ flat_map (fun x => strings.Split x " "%char) args.
Proof.
  induction args as [|x args IH]; intros a; cbn [fold_left flat_map];
    [by rewrite app_nil_r|].
  by rewrite fold_left_snoc, IH, app_assoc.
Qed.

Lemma NewHelmCLI_Args binary version cwd args :
  util.Args (helm.Runner (helm.NewHelmCLI binary version cwd args))
  = flat_map (fun x => strings.Split x " "%char) args.
Proof.
  unfold helm.NewHelmCLI. cbn [helm.Runner util.new util.Args].
  by rewrite fold_left_split_pieces.
Qed.

Lemma concat_app (sep : string) (l1 l2 : list string) :
  l1 <> [] -> l2 <> [] ->
  String.concat sep (l1 ++ l2)
  = String.concat sep l1 +:+ sep +:+ String.concat sep l2.
Proof.
  intros H1 H2. induction l1 as [|x l1 IH]; [done|].
  destruct l1 as [|y l1].
  - simpl. by destruct l2.
  - change (x +:+ sep +:+ String.concat sep ((y :: l1) ++ l2)
            = (x +:+ sep +:+ String.concat sep (y :: l1))
              +:+ sep +:+ String.concat sep l2).
    rewrite IH by done. by rewrite !append_assoc.
Qed.

Lemma Split_not_nil s sep : strings.Split s sep <> [].
Proof.
  intros H. pose proof (Split_length s sep) as Hl. by rewrite H in Hl.
Qed.

(** X7.  [NewHelmCLI] cuts every argument at its spaces and keeps the
    pieces in order: no argument of the runner holds a space, and joined
    with spaces they read as the arguments given did.  The runner starts
    with no attempt and no error, and is not quiet. *)
Theorem NewHelmCLI_splits_at_spaces
    (binary : string) (version : helm.Version) (cwd : string)
    (args : list string) :
  let runner := helm.Runner (helm.NewHelmCLI binary version cwd args) in
  util.Args runner = flat_map (fun x => strings.Split x " "%char) args
  /\ (forall a, a ∈ util.Args runner -> count_byte " "%char a = 0)
  /\ strings.Join (util.Args runner) " " = strings.Join args " "
  /\ util.attempts runner = 0%Z /\ util.Errors runner = []
  /\ util.IsQuiet runner = false.
Proof.
  intros runner. unfold runner. rewrite NewHelmCLI_Args.
  split; [reflexivity|]. split; [|split; [|by repeat split]].
  - intros a Ha. apply list_elem_of_In, in_flat_map in Ha.
    destruct Ha as (x & _ & Ha). apply list_elem_of_In in Ha.
    by apply Split_pieces in Ha.
  - unfold strings.Join. induction args as [|x args IH]; [reflexivity|].
    cbn [flat_map]. destruct args as [|y args].
    + cbn [flat_map]. rewrite app_nil_r. apply Join_Split.
    + rewrite concat_app.
      * rewrite IH. pose proof (Join_Split x " "%char) as HJ.
        unfold strings.Join in HJ. by rewrite HJ.
      * apply Split_not_nil.
      * cbn [flat_map]. intros H. apply app_eq_nil in H.
        destruct H as [H _]. by apply Split_not_nil in H.
Qed.

Lemma runHelm_runner os args h :
  let r := util.set_Args args
             (util.set_Dir (helm.CWD h)
                (util.set_Name (helm.Binary h) (helm.Runner h))) in
  helm.runHelm os args h
  = (snd (util.run os r),
     helm.set_Runner (util.record (snd (util.run os r)) r) h)
  /\ helm.runHelmWithOutput os args h
     = (util.run os r,
        helm.set_Runner (util.record (snd (util.run os r)) r) h).
Proof.
  unfold helm.runHelm, helm.runHelmWithOutput, util.RunWithoutRetry.
  cbn zeta.
  by destruct (util.run os _) as [out err].
Qed.

(** X8.  [runHelm] is [runHelmWithOutput] with the text dropped: the same
    error and the same client afterwards.  Whatever name, directory and
    arguments the runner held before, a runner that is not quiet launches
    the client's binary with the given arguments in the client's working
    directory: the text is that process's output, trimmed, and the call
    fails exactly when the process does. *)
Theorem runHelm_launches_binary_in_CWD
    (os : exec.Process) (args : list string) (h : helm.HelmCLI) :
  util.IsQuiet (helm.Runner h) = false ->
  helm.runHelm os args h
  = (snd (fst (helm.runHelmWithOutput os args h)),
     snd (helm.runHelmWithOutput os args h))
  /\ fst (fst (helm.runHelmWithOutput os args h))
     = strings.TrimSpace (fst (os (helm.Binary h) args (helm.CWD h)))
  /\ (fst (helm.runHelm os args h) = None
      <-> snd (os (helm.Binary h) args (helm.CWD h)) = None)
  /\ forall runner,
       util.Verbose runner = util.Verbose (helm.Runner h) ->
       util.Quiet runner = util.Quiet (helm.Runner h) ->
       fst (helm.runHelm os args (helm.set_Runner runner h))
       = fst (helm.runHelm os args h).
Proof.
  intros Hq.
  destruct (runHelm_runner os args h) as [H1 H2]. cbn zeta in H1, H2.
  rewrite H1, H2. cbn [fst snd].
  split; [reflexivity|].
  rewrite run_launches by exact Hq. cbn [fst snd util.Name util.Args util.Dir
    util.set_Args util.set_Dir util.set_Name].
  split; [reflexivity|]. split.
  - by destruct (os (helm.Binary h) args (helm.CWD h)) as [out [e|]].
  - intros runner Hv Hq'.
    destruct (runHelm_runner os args (helm.set_Runner runner h)) as [H3 _].
    cbn zeta in H3. rewrite H3. cbn [fst].
    rewrite run_launches.
    + reflexivity.
    + unfold util.IsQuiet, util.IsVerbose in *. cbn. by rewrite Hv, Hq'.
Qed.

Lemma runHelm_launches_binary_in_CWD_witness :
  fst (helm.runHelm prints_ok ["repo"; "update"]
         (helm.SetCWD "/work" helm2)) = None.
Proof.
  destruct (runHelm_launches_binary_in_CWD prints_ok ["repo"; "update"]
              (helm.SetCWD "/work" helm2) eq_refl) as (_ & _ & Hiff & _).
  apply Hiff. reflexivity.
Defined.

(** X9.  The operations of one client share one runner, and none resets
    it: each call adds one attempt, appends its error if it failed, and
    leaves the earlier errors in place, so [DidError] on the runner stays
    true after a later success. *)
Theorem helm_runner_keeps_history
    (os : exec.Process) (args : list string) (h : helm.HelmCLI) :
  let before := helm.Runner h in
  let after := helm.Runner (snd (helm.runHelm os args h)) in
  helm.Runner (snd (helm.runHelmWithOutput os args h)) = after
  /\ util.attempts after = int_wrap (util.attempts before + 1)
  /\ util.Errors after
     = util.Errors before ++ failures [fst (helm.runHelm os args h)]
  /\ (util.DidError before = true -> util.DidError after = true)
  /\ helm.Binary (snd (helm.runHelm os args h)) = helm.Binary h
  /\ helm.CWD (snd (helm.runHelm os args h)) = helm.CWD h.
Proof.
  destruct (runHelm_runner os args h) as [H1 H2]. cbn zeta in *.
  rewrite H1, H2. cbn [fst snd helm.Runner helm.set_Runner helm.Binary
    helm.CWD].
  split; [reflexivity|].
  rewrite record_attempts, record_Errors.
  split; [reflexivity|]. split; [reflexivity|]. split; [|by split].
  rewrite !DidError_iff, record_Errors.
  intros Hne Happ. apply app_eq_nil in Happ. by destruct Happ.
Qed.

(** X10.  With a quiet runner no operation of the client reaches helm:
    whatever the process would do, the call fails, with the same error;
    the three parsers return that failure, wrapped, and do not panic. *)
Theorem quiet_runner_fails_every_operation
    (os : exec.Process) (args : list string) (chart : string)
    (h : helm.HelmCLI) :
  util.IsQuiet (helm.Runner h) = true ->
  is_Some (fst (helm.runHelm os args h))
  /\ (forall os', helm.runHelm os' args h = helm.runHelm os args h)
  /\ (exists e, fst (helm.ListRepos os h) = Returns (∅, Some e))
  /\ (exists e, fst (helm.SearchChartVersions os chart h)
                = Returns ([], Some e))
  /\ (exists e, fst (helm.StatusReleases os h) = Returns (∅, Some e)).
Proof.
  intros Hq.
  assert (Hrun : forall args,
             let r := util.set_Args args
                        (util.set_Dir (helm.CWD h)
                           (util.set_Name (helm.Binary h) (helm.Runner h))) in
             is_Some (snd (util.run os r))
             /\ forall os', util.run os' r = util.run os r).
  { intros args' r. apply (run_quiet_fails os r). exact Hq. }
  split; [|split; [|split; [|split]]].
  - destruct (runHelm_runner os args h) as [-> _]. apply Hrun.
  - intros os'.
    destruct (runHelm_runner os args h) as [-> _].
    destruct (runHelm_runner os' args h) as [-> _].
    by rewrite (proj2 (Hrun args) os').
  - unfold helm.ListRepos.
    destruct (runHelm_runner os ["repo"; "list"] h) as [_ ->].
    destruct (Hrun ["repo"; "list"]) as [[e He] _]. cbn zeta in He.
    destruct (util.run os _) as [out err]. cbn [snd] in He. subst err.
    by eexists.
  - unfold helm.SearchChartVersions.
    destruct (runHelm_runner os ["search"; chart; "--versions"] h) as [_ ->].
    destruct (Hrun ["search"; chart; "--versions"]) as [[e He] _].
    cbn zeta in He.
    destruct (util.run os _) as [out err]. cbn [snd] in He. subst err.
    by eexists.
  - unfold helm.StatusReleases, helm.ListCharts.
    destruct (runHelm_runner os ["list"] h) as [_ ->].
    destruct (Hrun ["list"]) as [[e He] _]. cbn zeta in He.
    destruct (util.run os _) as [out err]. cbn [snd] in He. subst err.
    by eexists.
Qed.

Lemma quiet_runner_fails_every_operation_witness :
  is_Some (fst (helm.runHelm prints_ok ["repo"; "update"] quiet_helm)).
Proof.
  apply (quiet_runner_fails_every_operation prints_ok ["repo"; "update"]
           "jenkins" quiet_helm eq_refl).
Defined.

(** ** The parsers, beyond the two skipped lines *)

Lemma slice_from_2_Panics {A} (l : list A) :
  slice_from 2 l = Panics <-> length l < 2.
Proof.
  unfold slice_from. destruct (Nat.leb_spec 2 (length l)); split;
    (done || lia).
Qed.

(** X11.  Each of [ListRepos], [SearchChartVersions] and [StatusReleases]
    panics only when its command succeeded with an output of fewer than two
    lines.  When the command failed the output is not looked at: the parser
    returns the failure wrapped, with an empty result. *)
Theorem parsers_panic_only_on_short_success
    (os : exec.Process) (h : helm.HelmCLI) (chart : string) :
  let short (run : string * option error) :=
    snd run = None /\ length (strings.Split (fst run) strings.nl) < 2 in
  ((fst (helm.ListRepos os h) = Panics
    <-> short (fst (helm.runHelmWithOutput os ["repo"; "list"] h)))
   /\ forall e,
        snd (fst (helm.runHelmWithOutput os ["repo"; "list"] h)) = Some e ->
        fst (helm.ListRepos os h)
        = Returns (∅, Some (errors.Wrap e "failed to list repositories")))
  /\ ((fst (helm.SearchChartVersions os chart h) = Panics
       <-> short (fst (helm.runHelmWithOutput
                         os ["search"; chart; "--versions"] h)))
      /\ forall e,
           snd (fst (helm.runHelmWithOutput
                       os ["search"; chart; "--versions"] h)) = Some e ->
           fst (helm.SearchChartVersions os chart h)
           = Returns ([], Some (errors.Wrap e ("failed to search chart '"
                                               +:+ chart +:+ "'"))))
  /\ ((fst (helm.StatusReleases os h) = Panics
       <-> short (fst (helm.ListCharts os h)))
      /\ forall e,
           snd (fst (helm.ListCharts os h)) = Some e ->
           fst (helm.StatusReleases os h)
           = Returns (∅, Some (errors.Wrap
                                 e "failed to list the installed chart releases"))).
Proof.
  intros short. unfold short.
  split; [|split].
  - unfold helm.ListRepos.
    destruct (helm.runHelmWithOutput os _ h) as [[out [e|]] h']; cbn [fst snd].
    + split; [split; [discriminate | by intros [? _]] | by intros ? [= <-]].
    + split; [|discriminate].
      rewrite <- slice_from_2_Panics.
      destruct (slice_from 2 _); split; (done || by intros [_ ?] || by split).
  - unfold helm.SearchChartVersions.
    destruct (helm.runHelmWithOutput os _ h) as [[out [e|]] h']; cbn [fst snd].
    + split; [split; [discriminate | by intros [? _]] | by intros ? [= <-]].
    + split; [|discriminate].
      rewrite <- slice_from_2_Panics.
      destruct (slice_from 2 _); split; (done || by intros [_ ?] || by split).
  - unfold helm.StatusReleases.
    destruct (helm.ListCharts os h) as [[out [e|]] h']; cbn [fst snd].
    + split; [split; [discriminate | by intros [? _]] | by intros ? [= <-]].
    + split; [|discriminate].
      rewrite <- slice_from_2_Panics.
      destruct (slice_from 2 _); split; (done || by intros [_ ?] || by split).
Qed.

Lemma SearchChartVersions_line_second versions l :
  helm.SearchChartVersions_line versions l = versions ++ second_token l.
Proof.
  unfold helm.SearchChartVersions_line, second_token.
  destruct (strings.Fields l) as [|f0 [|v fs]] eqn:HF;
    try by rewrite app_nil_r.
  assert (Hv : v <> "").
  { apply (Fields_nonempty l). rewrite HF.
    apply elem_of_cons. right. apply elem_of_cons. by left. }
  by destruct (String.eqb_spec v "").
Qed.

Lemma fold_left_SearchChartVersions_line rest : forall versions,
  fold_left helm.SearchChartVersions_line rest versions
  = versions ++ flat_map second_token rest.
Proof.
  induction rest as [|l rest IH]; intros versions; cbn [fold_left flat_map];
    [by rewrite app_nil_r|].
  by rewrite IH, SearchChartVersions_line_second, app_assoc.
Qed.

(** X12.  When [search] succeeds with at least two lines of output,
    [SearchChartVersions] returns the second token of every later line that
    has one, in the order of the lines and with repetitions kept.  No
    version is empty (the test [v != ""] never fails), and there are at
    most as many versions as lines. *)
Theorem SearchChartVersions_second_tokens
    (os : exec.Process) (chart : string) (h : helm.HelmCLI)
    (output header separator : string) (rest : list string) :
  fst (helm.runHelmWithOutput os ["search"; chart; "--versions"] h)
  = (output, None) ->
  strings.Split output strings.nl = header :: separator :: rest ->
  let versions := flat_map second_token rest in
  fst (helm.SearchChartVersions os chart h) = Returns (versions, None)
  /\ (forall v, v ∈ versions -> v <> "")
  /\ length versions <= length rest.
Proof.
  intros Hrun Hsplit versions. unfold helm.SearchChartVersions.
  destruct (helm.runHelmWithOutput os _ h) as [[out err] h'].
  cbn [fst] in Hrun. injection Hrun as -> ->.
  rewrite Hsplit. cbn [slice_from length Nat.leb drop fst].
  rewrite fold_left_SearchChartVersions_line.
  split; [reflexivity|]. split.
  - intros v Hv. apply list_elem_of_In, in_flat_map in Hv.
    destruct Hv as (l & _ & Hv). unfold second_token in Hv.
    destruct (strings.Fields l) as [|f0 [|v' fs]] eqn:HF; try done.
    destruct Hv as [<-|[]].
    apply (Fields_nonempty l). rewrite HF.
    apply elem_of_cons. right. apply elem_of_cons. by left.
  - unfold versions. clear. induction rest as [|l rest IH]; [done|].
    cbn [flat_map]. rewrite length_app. cbn [length].
    assert (length (second_token l) <= 1); [|lia].
    unfold second_token. by destruct (strings.Fields l) as [|? [|? ?]]; cbn; lia.
Qed.

Lemma SearchChartVersions_second_tokens_witness :
  fst (helm.SearchChartVersions
         (prints (row ["NAME"; "VERSION"] +:+ row ["---"]
                  +:+ row ["mychart"; "1.2.0"] +:+ row ["mychart"; "1.2.0"]
                  +:+ row ["broken"]))
         "mychart" helm2)
  = Returns (["1.2.0"; "1.2.0"], None).
Proof.
  by destruct (SearchChartVersions_second_tokens
                 (prints (row ["NAME"; "VERSION"] +:+ row ["---"]
                          +:+ row ["mychart"; "1.2.0"]
                          +:+ row ["mychart"; "1.2.0"] +:+ row ["broken"]))
                 "mychart" helm2 _ _ _ _ eq_refl eq_refl) as [-> _].
Defined.

(** X13.  In the map [ListRepos] returns no repository has the empty name;
    in the map [StatusReleases] returns every release and every status is
    trimmed (a release may be the empty string). *)
Theorem parsed_maps_keys_and_values (os : exec.Process) (h : helm.HelmCLI) :
  (forall repos err name URL,
      fst (helm.ListRepos os h) = Returns (repos, err) ->
      repos !! name = Some URL -> name <> "")
  /\ (forall statusMap err release status,
         fst (helm.StatusReleases os h) = Returns (statusMap, err) ->
         statusMap !! release = Some status ->
         strings.TrimSpace release = release
         /\ strings.TrimSpace status = status).
Proof.
  split.
  - intros repos err name URL. unfold helm.ListRepos.
    destruct (helm.runHelmWithOutput os _ h) as [[out [e|]] h']; cbn [fst].
    + intros [= <- <-]. by rewrite lookup_empty.
    + destruct (slice_from 2 _) as [rest|]; [|discriminate].
      cbn [fst]. intros [= <- <-].
      rewrite (fold_left_ext _ _ rest ListRepos_line_put), fold_put_empty.
      intros (i & l & _ & He & _). unfold repo_entry in He.
      apply (Fields_nonempty l).
      destruct (strings.Fields l) as [|f0 [|f1 fs]]; try discriminate;
        injection He as <- _; apply elem_of_cons; by left.
  - intros statusMap err release status. unfold helm.StatusReleases.
    destruct (helm.ListCharts os h) as [[out [e|]] h']; cbn [fst].
    + intros [= <- <-]. by rewrite lookup_empty.
    + destruct (slice_from 2 _) as [rest|]; [|discriminate].
      cbn [fst]. intros [= <- <-].
      rewrite (fold_left_ext _ _ rest StatusReleases_line_put), fold_put_empty.
      intros (i & l & _ & He & _). unfold status_entry in He.
      destruct (strings.Split l strings.tab) as [|f0 [|? [|? [|f3 ?]]]];
        try discriminate.
      injection He as <- <-. by rewrite !TrimSpace_idempotent.
Qed.

Lemma parsed_maps_keys_and_values_witness : "repo1" <> "".
Proof.
  apply (proj1 (parsed_maps_keys_and_values (prints repo_list_example) helm2)
           {[ "repo1" := "http://a"; "repo2" := "" ]} None "repo1" "http://a");
    by vm_compute.
Defined.

(** ** [IsRepoMissing], whatever the URLs *)

(** X14.  [IsRepoMissing] never answers "not missing" together with an
    error: whenever it returns an error the boolean is [true].  It panics
    exactly when [ListRepos] does, and a failure to list is wrapped a
    second time. *)
Theorem IsRepoMissing_error_means_missing
    (Parse : url.Parser)
    (range : gmap string string -> list (string * string))
    (os : exec.Process) (URL : string) (h : helm.HelmCLI) :
  (forall missing e,
      fst (helm.IsRepoMissing Parse range os URL h)
      = Returns (missing, Some e) ->
      missing = true)
  /\ (fst (helm.IsRepoMissing Parse range os URL h) = Panics
      <-> fst (helm.ListRepos os h) = Panics)
  /\ (forall repos e,
         fst (helm.ListRepos os h) = Returns (repos, Some e) ->
         fst (helm.IsRepoMissing Parse range os URL h)
         = Returns (true,
                    Some (errors.Wrap e "failed to list the repositories"))).
Proof.
  unfold helm.IsRepoMissing.
  destruct (helm.ListRepos os h) as [[[repos [e|]]|] h']; cbn [fst].
  - split; [by intros ? ? [= <- _]|]. split; [done|]. by intros ? ? [= _ <-].
  - destruct (Parse URL) as [searched|e]; cbn [fst].
    + split; [|by split].
      intros missing e.
      pose proof (IsRepoMissing_loop_cases Parse searched (range repos)) as Hc.
      cbn zeta in Hc.
      destruct Hc as [(-> & _)|[(? & ? & ? & _ & _ & _ & ->)|(-> & _)]];
        by intros [= <- ?].
    + split; [by intros ? ? [= <- _] | by split].
  - split; [discriminate | by split].
Qed.

(** X15.  When every stored URL that is not empty parses, the order in
    which the map is visited does not matter: [IsRepoMissing] gives the
    same result under any two orders. *)
Theorem IsRepoMissing_order_irrelevant
    (Parse : url.Parser)
    (range1 range2 : gmap string string -> list (string * string))
    (os : exec.Process) (URL : string) (h : helm.HelmCLI) :
  (forall m, range1 m ≡ₚ map_to_list m) ->
  (forall m, range2 m ≡ₚ map_to_list m) ->
  (forall repos name repoURL,
      fst (helm.ListRepos os h) = Returns (repos, None) ->
      repos !! name = Some repoURL -> repoURL <> "" ->
      exists u, Parse repoURL = inl u) ->
  helm.IsRepoMissing Parse range1 os URL h
  = helm.IsRepoMissing Parse range2 os URL h.
Proof.
  intros Hr1 Hr2 Hparse. unfold helm.IsRepoMissing.
  destruct (helm.ListRepos os h) as [[[repos [e|]]|] h']; try reflexivity.
  cbn [fst] in Hparse. specialize (Hparse repos).
  destruct (Parse URL) as [searched|e]; [|reflexivity].
  f_equal. f_equal.
  pose proof (IsRepoMissing_loop_cases Parse searched (range1 repos)) as H1.
  pose proof (IsRepoMissing_loop_cases Parse searched (range2 repos)) as H2.
  cbn zeta in H1, H2.
  assert (Hbad : forall range n r err,
             (forall m, range m ≡ₚ map_to_list m) ->
             (n, r) ∈ range repos -> r <> "" -> Parse r = inr err -> False).
  { intros range n r err Hr Hin Hne HP.
    apply (elem_of_range range Hr) in Hin.
    destruct (Hparse n r eq_refl Hin Hne) as [u Hu]. congruence. }
  destruct H1 as [(-> & n1 & r1 & u1 & Hin1 & Hne1 & HP1 & Hh1)
                 |[(n1 & r1 & e1 & Hin1 & Hne1 & HP1 & _)|(-> & Hall1)]];
    [| by destruct (Hbad range1 n1 r1 e1 Hr1 Hin1 Hne1 HP1) |];
    destruct H2 as [(-> & n2 & r2 & u2 & Hin2 & Hne2 & HP2 & Hh2)
                   |[(n2 & r2 & e2 & Hin2 & Hne2 & HP2 & _)|(-> & Hall2)]];
    try reflexivity;
    try by destruct (Hbad range2 n2 r2 e2 Hr2 Hin2 Hne2 HP2).
  - apply (elem_of_range range1 Hr1), (elem_of_range range2 Hr2) in Hin1.
    destruct (Hall2 n1 r1 Hin1 Hne1) as (u & Hu & Hne). congruence.
  - apply (elem_of_range range2 Hr2), (elem_of_range range1 Hr1) in Hin2.
    destruct (Hall1 n2 r2 Hin2 Hne2) as (u & Hu & Hne). congruence.
Qed.

Lemma IsRepoMissing_error_means_missing_witness :
  exists e,
    fst (helm.IsRepoMissing Parse_examples range_in_key_order exits_1
           "http://example.com/x" helm2)
    = Returns (true, Some e).
Proof.
  destruct (IsRepoMissing_error_means_missing Parse_examples
              range_in_key_order exits_1 "http://example.com/x" helm2)
    as (_ & _ & Hlist).
  eexists. apply (Hlist ∅). reflexivity.
Defined.

Lemma IsRepoMissing_order_irrelevant_witness :
  range_in_key_order {[ "a" := "http://example.com/y";
                        "b" := "http://other.com" ]}
  <> range_reversed {[ "a" := "http://example.com/y";
                       "b" := "http://other.com" ]}
  /\ helm.IsRepoMissing Parse_examples range_in_key_order
       (prints repo_list_two_hosts) "http://example.com/x" helm2
     = helm.IsRepoMissing Parse_examples range_reversed
         (prints repo_list_two_hosts) "http://example.com/x" helm2.
Proof.
  split; [by vm_compute|].
  apply IsRepoMissing_order_irrelevant.
  - intros m. reflexivity.
  - intros m. unfold range_reversed. apply reverse_Permutation.
  - intros repos name repoURL Hlist Hl Hne.
    assert (Heq : @Returns (gmap string string * option error) (repos, None)
                  = Returns ({[ "a" := "http://example.com/y";
                                "b" := "http://other.com" ]}, None))
      by (rewrite <- Hlist; by vm_compute).
    injection Heq as ->.
    apply lookup_insert_Some in Hl.
    destruct Hl as [[_ <-]|[_ Hl]]; [by eexists|].
    apply lookup_singleton_Some in Hl. destruct Hl as [_ <-].
    by eexists.
Defined.

(** ** Where [FindChart] takes its answer from *)

(** X16.  What [FindChart] returns without error is the path in the working
    directory, the first match of the one-level pattern, or a match of the
    two-level pattern that does not end in [/preview/Chart.yaml].  An error
    comes with the empty path and wraps an error of the existence check or
    of a glob.  When the file in the working directory exists, no glob
    matters. *)
Theorem FindChart_provenance (fs : helm.FileSystem) (h : helm.HelmCLI) :
  let chartFile := helm.Join fs (helm.CWD h) "Chart.yaml" in
  (forall p,
      helm.FindChart fs h = (p, None) ->
      p = chartFile
      \/ (exists files, helm.Glob fs "*/Chart.yaml" = (p :: files, None))
      \/ (exists files,
             helm.Glob fs "*/*/Chart.yaml" = (files, None) /\ p ∈ files
             /\ strings.HasSuffix p "/preview/Chart.yaml" = false))
  /\ (forall p e,
         helm.FindChart fs h = (p, Some e) ->
         p = ""
         /\ exists cause msg,
              e = errors.Wrap cause msg
              /\ (snd (helm.FileExists fs chartFile) = Some cause
                  \/ snd (helm.Glob fs "*/Chart.yaml") = Some cause
                  \/ snd (helm.Glob fs "*/*/Chart.yaml") = Some cause))
  /\ (helm.FileExists fs chartFile = (true, None) ->
      forall glob,
        helm.FindChart
          (helm.mkFileSystem (helm.FileExists fs) glob (helm.Join fs)) h
        = (chartFile, None)).
Proof.
  intros chartFile.
  assert (Hloop : forall files p,
             helm.FindChart_loop files = Some p ->
             p ∈ files /\ strings.HasSuffix p "/preview/Chart.yaml" = false).
  { induction files as [|f files IH]; intros p; [discriminate|].
    cbn [helm.FindChart_loop].
    destruct (strings.HasSuffix f "/preview/Chart.yaml") eqn:Hf; cbn [negb].
    - intros H. apply IH in H. destruct H as [Hin Hp].
      split; [apply elem_of_cons; by right | exact Hp].
    - intros [= <-]. split; [apply elem_of_cons; by left | exact Hf]. }
  unfold helm.FindChart. fold chartFile.
  split; [|split].
  - intros p.
    destruct (helm.FileExists fs chartFile) as [[|] [e|]]; try discriminate.
    + intros [= <-]. by left.
    + cbn [negb].
      destruct (helm.Glob fs "*/Chart.yaml") as [[|f files] [e|]];
        try discriminate.
      * destruct (helm.Glob fs "*/*/Chart.yaml") as [files [e|]];
          [discriminate|].
        destruct (helm.FindChart_loop files) as [f|] eqn:Hf.
        -- intros [= <-]. right. right. exists files.
           split; [reflexivity | by apply Hloop].
        -- intros [= <-]. by left.
      * intros [= <-]. right. left. by exists files.
  - intros p e.
    destruct (helm.FileExists fs chartFile) as [[|] [e0|]]; cbn [negb snd].
    + intros [= <- <-]. split; [reflexivity|]. eexists _, _. by split; [|left].
    + discriminate.
    + intros [= <- <-]. split; [reflexivity|]. eexists _, _. by split; [|left].
    + destruct (helm.Glob fs "*/Chart.yaml") as [[|f files] [e1|]];
        cbn [snd].
      * intros [= <- <-]. split; [reflexivity|].
        eexists _, _. split; [reflexivity|]. right. by left.
      * destruct (helm.Glob fs "*/*/Chart.yaml") as [files [e2|]]; cbn [snd].
        -- intros [= <- <-]. split; [reflexivity|].
           eexists _, _. split; [reflexivity|]. right. by right.
        -- by destruct (helm.FindChart_loop files).
      * intros [= <- <-]. split; [reflexivity|].
        eexists _, _. split; [reflexivity|]. right. by left.
      * discriminate.
  - intros Hex glob. unfold helm.FindChart.
    cbn [helm.Join helm.FileExists helm.Glob]. fold chartFile.
    by rewrite Hex.
Qed.

Lemma FindChart_provenance_witness :
  helm.FindChart
    (helm.mkFileSystem (helm.FileExists top_chart) (helm.Glob only_preview)
                       join_slash)
    (helm.NewHelmCLI "helm" 2%Z "/work" [])
  = ("/work/Chart.yaml", None).
Proof.
  apply (proj2 (proj2 (FindChart_provenance
                         top_chart (helm.NewHelmCLI "helm" 2%Z "/work" [])))).
  reflexivity.
Defined.

(** ** The other argument vectors *)

(** X17.  [InstallChart] launches helm with [install --name <release>
    --namespace <ns> <chart>] and then the options: [--timeout n] and
    [--version v] when given, one [--set] pair per value and one
    [--values] pair per file, in the order given.  [UpgradeChart] renders
    the same options the same way, between its switches and the release
    name and chart that it puts last. *)
Theorem InstallChart_argument_order
    (os : exec.Process) (chart releaseName ns : string)
    (version : option string) (timeout : option Z)
    (values valueFiles : list string) (h : helm.HelmCLI) :
  let options :=
    match timeout with
    | Some n => ["--timeout"; strconv.Itoa n]
    | None => []
    end
    ++ match version with Some v => ["--version"; v] | None => [] end
    ++ flat_map (fun value => ["--set"; value]) values
    ++ flat_map (fun valueFile => ["--values"; valueFile]) valueFiles in
  helm.InstallChart_args chart releaseName ns version timeout values valueFiles
  = ["install"; "--name"; releaseName; "--namespace"; ns; chart] ++ options
  /\ util.Args (helm.Runner
                  (snd (helm.InstallChart os chart releaseName ns version
                          timeout values valueFiles h)))
     = ["install"; "--name"; releaseName; "--namespace"; ns; chart] ++ options
  /\ (forall install force wait,
         helm.UpgradeChart_args chart releaseName ns version install timeout
                                force wait values valueFiles
         = ["upgrade"; "--namespace"; ns]
           ++ (if install then ["--install"] else [])
           ++ (if wait then ["--wait"] else [])
           ++ (if force then ["--force"] else [])
           ++ options ++ [releaseName; chart])
  /\ length options
     = (if timeout is Some _ then 2 else 0)
       + (if version is Some _ then 2 else 0)
       + 2 * length values + 2 * length valueFiles.
Proof.
  intros options.
  assert (Hargs : helm.InstallChart_args chart releaseName ns version timeout
                    values valueFiles
                  = ["install"; "--name"; releaseName; "--namespace"; ns; chart]
                    ++ options).
  { unfold helm.InstallChart_args, options.
    rewrite !fold_left_append_pairs.
    destruct timeout, version; simpl; by rewrite <- ?app_assoc. }
  split; [exact Hargs|]. split; [|split].
  - unfold helm.InstallChart. rewrite Hargs.
    destruct (runHelm_runner os
                (["install"; "--name"; releaseName; "--namespace"; ns; chart]
                 ++ options) h) as [-> _].
    cbn [snd helm.Runner helm.set_Runner].
    by destruct (util.run os _) as [out [e|]].
  - intros install force wait. unfold helm.UpgradeChart_args, options.
    rewrite !fold_left_append_pairs.
    destruct install, wait, force, timeout, version; simpl;
      by rewrite <- ?app_assoc.
  - unfold options. rewrite !length_app.
    assert (Hpairs : forall (flag : string) (xs : list string),
               length (flat_map (fun x => [flag; x]) xs) = 2 * length xs).
    { intros flag xs. induction xs as [|x xs IH]; [reflexivity|].
      cbn [flat_map length app]. rewrite IH. lia. }
    rewrite !Hpairs. destruct timeout, version; cbn [length]; lia.
Qed.

(** X18.  Every operation of the client that runs helm is one call of
    [runHelm] or [runHelmWithOutput], so one attempt of the shared runner,
    and its first argument is the subcommand.  [Init] leaves out
    [--service-account] and [--tiller-namespace] when the value is the empty
    string; [DeleteRelease] puts the release name last, after [--purge]. *)
Theorem operations_run_helm_once
    (os : exec.Process) (h : helm.HelmCLI)
    (clientOnly upgrade purge tls : bool)
    (serviceAccount tillerNamespace releaseName repo URL : string) :
  let runs_ sub (result : option error * helm.HelmCLI) :=
    exists rest, result = helm.runHelm os (sub :: rest) h in
  let reads sub (result : string * option error * helm.HelmCLI) :=
    exists rest, result = helm.runHelmWithOutput os (sub :: rest) h in
  (runs_ "init"
     (helm.Init os clientOnly serviceAccount tillerNamespace upgrade h)
   /\ runs_ "repo" (helm.AddRepo os repo URL h)
   /\ runs_ "repo" (helm.RemoveRepo os repo h)
   /\ runs_ "repo" (helm.UpdateRepo os h)
   /\ runs_ "dependency" (helm.BuildDependency os h)
   /\ runs_ "delete" (helm.DeleteRelease os releaseName purge h)
   /\ runs_ "status" (helm.StatusRelease os releaseName h)
   /\ runs_ "package" (helm.PackageChart os h)
   /\ reads "list" (helm.ListCharts os h)
   /\ reads "lint" (helm.Lint os h)
   /\ reads "version" (helm.Version_ os tls h))
  /\ helm.Init_args clientOnly serviceAccount tillerNamespace upgrade
     = ["init"]
       ++ (if clientOnly then ["--client-only"] else [])
       ++ (if String.eqb serviceAccount "" then []
           else ["--service-account"; serviceAccount])
       ++ (if String.eqb tillerNamespace "" then []
           else ["--tiller-namespace"; tillerNamespace])
       ++ (if upgrade then ["--upgrade"] else [])
  /\ helm.DeleteRelease_args releaseName purge
     = ["delete"] ++ (if purge then ["--purge"] else []) ++ [releaseName]
  /\ helm.Version_args tls
     = ["version"; "--short"] ++ (if tls then ["--tls"] else []).
Proof.
  intros runs_ reads. unfold runs_, reads.
  assert (HInit : helm.Init_args clientOnly serviceAccount tillerNamespace
                    upgrade
                  = ["init"]
                    ++ (if clientOnly then ["--client-only"] else [])
                    ++ (if String.eqb serviceAccount "" then []
                        else ["--service-account"; serviceAccount])
                    ++ (if String.eqb tillerNamespace "" then []
                        else ["--tiller-namespace"; tillerNamespace])
                    ++ (if upgrade then ["--upgrade"] else [])).
  { unfold helm.Init_args.
    by destruct clientOnly, upgrade, (String.eqb serviceAccount ""),
      (String.eqb tillerNamespace ""). }
  assert (HDel : helm.DeleteRelease_args releaseName purge
                 = ["delete"] ++ (if purge then ["--purge"] else [])
                   ++ [releaseName])
    by (unfold helm.DeleteRelease_args; by destruct purge).
  assert (HVer : helm.Version_args tls
                 = ["version"; "--short"] ++ (if tls then ["--tls"] else []))
    by (unfold helm.Version_args; by destruct tls).
  split; [|by repeat split].
  unfold helm.Init, helm.DeleteRelease, helm.Version_.
  rewrite HInit, HDel, HVer.
  repeat split; eexists; reflexivity.
Qed.

(** ** Two more facts about the code as written *)

(** X19.  In the loop of [ListRepos] the call of [TrimSpace] changes
    nothing: the fields of the trimmed line are the fields of the line, so
    a line gives the same entry trimmed or not, and a line of white space
    only gives none. *)
Theorem ListRepos_trim_is_redundant
    (repos : gmap string string) (l : string) :
  helm.ListRepos_line repos l
  = match strings.Fields l with
    | name :: URL :: _ => <[name := URL]> repos
    | name :: [] => <[name := ""]> repos
    | [] => repos
    end
  /\ helm.ListRepos_line repos (strings.TrimSpace l)
     = helm.ListRepos_line repos l
  /\ (strings.TrimSpace l = "" -> helm.ListRepos_line repos l = repos).
Proof.
  assert (H : forall l', helm.ListRepos_line repos l'
                         = match strings.Fields l' with
                           | name :: URL :: _ => <[name := URL]> repos
                           | name :: [] => <[name := ""]> repos
                           | [] => repos
                           end).
  { intros l'. unfold helm.ListRepos_line. by rewrite Fields_TrimSpace. }
  split; [apply H|]. split.
  - by rewrite !H, Fields_TrimSpace.
  - intros Hblank. rewrite H, <- Fields_TrimSpace, Hblank. reflexivity.
Qed.

Lemma ListRepos_trim_is_redundant_witness :
  helm.ListRepos_line ∅ (String strings.tab "  ") = ∅.
Proof.
  apply (proj2 (proj2 (ListRepos_trim_is_redundant
                         ∅ (String strings.tab "  ")))).
  reflexivity.
Defined.

(** X20.  From a Command that has not been run, after any runs with fewer
    than 2^63 attempts in all, [Attempts] is the number of attempts made and
    the errors are never more than the attempts. *)
Theorem Attempts_counts_attempts
    (c0 c : util.Command) (log : list (option error)) :
  util.attempts c0 = 0%Z -> util.Errors c0 = [] ->
  runs c0 log c ->
  (Z.of_nat (length log) < 2 ^ 63)%Z ->
  util.Attempts c = Z.of_nat (length log)
  /\ (0 <= util.len (util.Errors c) <= util.Attempts c)%Z
  /\ util.len (util.Errors c) = Z.of_nat (length (failures log)).
Proof.
  intros Ha He Hruns Hlen.
  destruct (runs_bookkeeping _ _ _ Hruns) as [HE HA].
  rewrite He in HE. rewrite Ha, Z.add_0_l in HA. cbn [app] in HE.
  assert (Hatt : util.attempts c = Z.of_nat (length log)).
  { rewrite <- (int_wrap_small (Z.of_nat (length log))) by lia.
    rewrite <- HA. symmetry.
    apply (runs_attempts_wrapped _ _ _ Hruns). by rewrite Ha. }
  unfold util.Attempts, util.len. rewrite Hatt, HE.
  pose proof (failures_length_le log). repeat split; lia.
Qed.

Lemma Attempts_counts_attempts_witness :
  let c0 := util.new "helm" ["list"] "" in
  let c1 := snd (util.RunWithoutRetry exits_1 c0) in
  let c2 := snd (util.RunWithoutRetry prints_ok c1) in
  util.Attempts c2 = 2%Z.
Proof.
  intros c0 c1 c2.
  pose proof (runs_RunWithoutRetry c0 _ _ exits_1 (runs_nil c0)) as H1.
  pose proof (runs_RunWithoutRetry c0 _ _ prints_ok H1) as H2.
  by destruct (Attempts_counts_attempts c0 c2 _ eq_refl eq_refl H2 eq_refl)
    as [-> _].
Defined.
